(** * Equivalence checking and client traversal of [aesara.graph.opt_utils]

    A shallow embedding of [optimize_graph], [is_same_graph_with_merge],
    [is_same_graph] and [get_clients_at_depth], over an arena model of the
    mutable graph objects ([Variable], [Apply], [FunctionGraph]) they
    work on.  Python object identity is handle equality: a handle is the
    position of the object in its arena. *)

From Stdlib Require Import ZArith Lia.
From stdpp Require Import base option list gmap strings.

Open Scope Z_scope.
Open Scope nat_scope.

(** ** Data model *)

(** Modelled from the spec: the class [aesara.graph.basic.Variable], a
    Value that "is either a leaf (graph input, no producer) or derived
    (produced by exactly one owning Node)".  [owner] is the handle of the
    producing [Apply] ([None] for a leaf), [index] the position among the
    owner's outputs.  ([Variable] is a reserved word, hence the
    underscore.) *)
Record Variable_ := mkVariable {
  owner : option nat;
  index : option nat;
  name : string
}.

(** Modelled from the spec: the class [aesara.graph.basic.Apply], "an
    operation instance holding an ordered sequence of input Values and an
    ordered sequence of output Values it owns". *)
Record Apply := mkApply {
  op : string;
  inputs : list nat;
  outputs : list nat
}.

(** A consumer recorded in [fgraph.clients]: an [Apply] node, or the
    string ["output"] that [get_clients_at_depth] tests for, the "sentinel
    consumer marker" of a designated graph output. *)
Inductive client :=
  | ClientApply (node : nat)
  | ClientOutput.

Global Instance client_eq_dec : EqDecision client.
Proof. solve_decision. Defined.

(** Modelled from the spec: the class [aesara.graph.fg.FunctionGraph],
    "an explicit container over a set of designated input Values, a set of
    designated output Values, and a derived client index: for every Value,
    the ordered set of (consuming Node, input-position) pairs that
    reference it"; [apply_nodes] are the nodes it tracks. *)
Record FunctionGraph := mkFunctionGraph {
  fg_inputs : list nat;
  fg_outputs : list nat;
  apply_nodes : list nat;
  clients : gmap nat (list (client * nat))
}.

(** A call of the structural comparator, as seen by an observer. *)
Inductive event :=
  | CallEqualComputations (xs ys : list nat) (in_xs in_ys : option (list nat)).

(** The object store: the three arenas and the record of comparator calls. *)
Record World := mkWorld {
  variables : list Variable_;
  applies : list Apply;
  fgraphs : list FunctionGraph;
  calls : list event
}.

(** Attribute reads through a handle. *)
Definition var_owner (w : World) (v : nat) : option nat :=
  variables w !! v ≫= owner.

Definition var_index (w : World) (v : nat) : option nat :=
  variables w !! v ≫= index.

Definition node_op (w : World) (n : nat) : option string :=
  op <$> applies w !! n.

Definition node_inputs (w : World) (n : nat) : list nat :=
  default [] (inputs <$> applies w !! n).

Definition node_outputs (w : World) (n : nat) : list nat :=
  default [] (outputs <$> applies w !! n).

(** [fgraph.clients[v]]: [None] stands for the [KeyError] of a missing key. *)
Definition fg_clients (w : World) (fgraph v : nat) : option (list (client * nat)) :=
  fgraphs w !! fgraph ≫= λ g, clients g !! v.

(** ** Exceptions, results and generators *)

Inductive exn :=
  | AssertionError
  | KeyError
  | ValueError
  | IndexError
  | MalformedSubstitution.

Inductive result (A : Type) :=
  | Ok (a : A)
  | Raise (e : exn).
Arguments Ok {A} a.
Arguments Raise {A} e.

(** What a generator does when it is run to its end: the values it yields,
    in order, and the exception that stopped it, if any. *)
Definition gen (A : Type) : Type := list A * option exn.

Definition gen_done {A} : gen A := ([], None).
Definition gen_yield {A} (a : A) : gen A := ([a], None).
Definition gen_raise {A} (e : exn) : gen A := ([], Some e).

(** Run [g1], then [g2] unless [g1] raised. *)
Definition gen_seq {A} (g1 g2 : gen A) : gen A :=
  match g1 with
  | (ys, Some e) => (ys, Some e)
  | (ys, None) => (ys ++ g2.1, g2.2)
  end.

(** A [for] loop whose body yields. *)
Fixpoint gen_for {A B} (l : list A) (body : A → gen B) : gen B :=
  match l with
  | [] => gen_done
  | x :: l' => gen_seq (body x) (gen_for l' body)
  end.

(** ** [get_clients_at_depth] *)

(** The recursion of [get_clients_at_depth] on the number of levels left;
    the name [node] is rebound by the loop to each output Variable. *)
Fixpoint clients_at_depth (w : World) (fgraph : nat) (d : nat) (node : nat)
    : gen (option nat) :=
  gen_for (node_outputs w node) (λ node,
    match d with
    | S d' =>
        match fg_clients w fgraph node with
        | None => gen_raise KeyError
        | Some cs =>
            gen_for cs (λ '(out_node, _),
              match out_node with
              | ClientOutput => gen_done
              | ClientApply out_node => clients_at_depth w fgraph d' out_node
              end)
        end
    | O => gen_yield (var_owner w node)
    end).

Definition get_clients_at_depth (w : World) (fgraph node : nat) (depth : Z)
    : gen (option nat) :=
  clients_at_depth w fgraph (Z.to_nat depth) node.

(** A linear chain in [fgraph]: every node has one input and one output,
    the output of a node is consumed by the next node of the list only, and
    the output of the last node is the designated graph output. *)
Fixpoint linear_chain (w : World) (fgraph : nat) (chain : list nat) : Prop :=
  match chain with
  | [] => False
  | n :: rest =>
      ∃ v pos,
        length (node_inputs w n) = 1
        ∧ node_outputs w n = [v]
        ∧ var_owner w v = Some n
        ∧ match rest with
          | [] => fg_clients w fgraph v = Some [(ClientOutput, pos)]
          | m :: _ =>
              fg_clients w fgraph v = Some [(ClientApply m, pos)]
              ∧ linear_chain w fgraph rest
          end
  end.

(** ** The state and exception monad of the stateful code *)

Definition M (A : Type) : Type := World → result A * World.

Definition ret {A} (a : A) : M A := λ w, (Ok a, w).

Definition raise {A} (e : exn) : M A := λ w, (Raise e, w).

Definition bind {A B} (m : M A) (k : A → M B) : M B := λ w,
  match m w with
  | (Ok a, w') => k a w'
  | (Raise e, w') => (Raise e, w')
  end.

(** A read of the store. *)
Definition read {A} (f : World → A) : M A := λ w, (Ok (f w), w).

Notation "'let*' x ':=' c 'in' k" := (bind c (λ x, k))
  (at level 10, x pattern, c at level 100, k at level 200).

(** A [for] loop over a list whose body may raise. *)
Fixpoint for_each {A} (l : list A) (body : A → M unit) : M unit :=
  match l with
  | [] => ret tt
  | x :: l' => let* _ := body x in for_each l' body
  end.

(** [assert b]. *)
Definition assert (b : bool) : M unit :=
  if b then ret tt else raise AssertionError.

(** ** Dicts keyed by Variables

    A dict of Variables is the list of its items in insertion order;
    keys are compared by identity. *)

Definition dict_get (d : list (nat * nat)) (k dflt : nat) : nat :=
  match list_find (λ kv, kv.1 = k) d with
  | Some (_, kv) => kv.2
  | None => dflt
  end.

(** [d[k] = v]: an existing key keeps its place. *)
Fixpoint dict_set (d : list (nat * nat)) (k v : nat) : list (nat * nat) :=
  match d with
  | [] => [(k, v)]
  | (k', v') :: d' =>
      if decide (k' = k) then (k, v) :: d' else (k', v') :: dict_set d' k v
  end.

(** [dict(pairs)]. *)
Definition dict_of_pairs (pairs : list (nat * nat)) : list (nat * nat) :=
  foldl (λ d kv, dict_set d kv.1 kv.2) [] pairs.

(** ** The graph library the module relies on

    [copy.deepcopy], [graph_inputs], [vars_between], [FunctionGraph],
    [MergeOptimizer] and [equal_computations] are imported by the module
    and defined elsewhere; this section models them, and the functions
    they are made of, from their specification. *)

Definition with_clients (g : FunctionGraph) (cl : gmap nat (list (client * nat)))
    : FunctionGraph :=
  mkFunctionGraph (fg_inputs g) (fg_outputs g) (apply_nodes g) cl.

Definition with_fgraphs (w : World) (l : list FunctionGraph) : World :=
  mkWorld (variables w) (applies w) l (calls w).

Definition shift_variable (dn : nat) (x : Variable_) : Variable_ :=
  mkVariable ((λ n, n + dn) <$> owner x) (index x) (name x).

Definition shift_apply (dv : nat) (a : Apply) : Apply :=
  mkApply (op a) ((λ v, v + dv) <$> inputs a) ((λ v, v + dv) <$> outputs a).

(** Modelled from the spec: the deep-copy primitive ([copy.deepcopy]),
    "a single combined copy" that "must preserve internal aliasing" and
    whose result shares no Node or Value with the source.  The copy memo
    sends the handle [v] to [v + length (variables w)]: every object of the
    arenas gets one copy, appended to its arena, and the references inside
    a copy point to copies.  The copies of objects that the copied bundle
    does not reach are referenced by nothing. *)
Definition copy_objects (w : World) : World :=
  mkWorld
    (variables w ++ (shift_variable (length (applies w)) <$> variables w))
    (applies w ++ (shift_apply (length (variables w)) <$> applies w))
    (fgraphs w)
    (calls w).

(** [copy.deepcopy([var1, var2, givens])]: the two copied Variables and the
    copied dict. *)
Definition deepcopy (var1 var2 : nat) (givens : list (nat * nat))
    : M (list nat * list (nat * nat)) := λ w,
  let memo := λ v, v + length (variables w) in
  (Ok ([memo var1; memo var2], prod_map memo memo <$> givens), copy_objects w).

(** Modelled from the spec: one step of "backward reachability", the
    Variables one step upstream of [v]; the walk does not go past a
    Variable of [ins]. *)
Definition var_parents (w : World) (ins : list nat) (v : nat) : list nat :=
  if decide (v ∈ ins) then []
  else match var_owner w v with
       | Some n => node_inputs w n
       | None => []
       end.

Definition reach_step (w : World) (ins seen : list nat) : list nat :=
  seen ++ list_difference (remove_dups (seen ≫= var_parents w ins)) seen.

(** Modelled from the spec: [aesara.graph.basic.vars_between], the
    "reachable-Value set" of the outputs [outs], "membership determined by
    backward reachability from each output to its leaves".  A chain of
    owners has at most as many Variables as the arena holds, so that many
    rounds reach them all. *)
Definition vars_between (w : World) (ins outs : list nat) : list nat :=
  Nat.iter (length (variables w)) (reach_step w ins) (remove_dups outs).

(** Modelled from the spec: [aesara.graph.basic.graph_inputs], "all leaf
    Values reachable backward" from the Variables [vs]. *)
Definition graph_inputs (w : World) (vs : list nat) : list nat :=
  filter (λ v, var_owner w v = None) (vars_between w [] vs).

Definition setdefault (cl : gmap nat (list (client * nat))) (v : nat)
    : gmap nat (list (client * nat)) :=
  match cl !! v with
  | Some _ => cl
  | None => <[v := []]> cl
  end.

Definition add_client (cl : gmap nat (list (client * nat))) (v : nat)
    (c : client * nat) : gmap nat (list (client * nat)) :=
  <[v := default [] (cl !! v) ++ [c]]> cl.

(** Modelled from the spec: the upkeep of the "derived client index".
    Track the node [n] in [g], unless it is tracked already: its outputs
    become keys of the client index and [n] a client of each input. *)
Definition import_node (w : World) (g : FunctionGraph) (n : nat) : FunctionGraph :=
  if decide (n ∈ apply_nodes g) then g
  else
    mkFunctionGraph (fg_inputs g) (fg_outputs g) (apply_nodes g ++ [n])
      (foldl (λ cl ix, add_client cl ix.2 (ClientApply n, ix.1))
         (foldl setdefault (clients g) (node_outputs w n))
         (imap pair (node_inputs w n))).

(** Modelled from the spec: the upkeep of the "derived client index".
    Track [v] and everything upstream of it. *)
Definition import_var (w : World) (g : FunctionGraph) (v : nat) : FunctionGraph :=
  let vs := vars_between w [] [v] in
  foldl (import_node w)
    (with_clients g (foldl setdefault (clients g) vs))
    (remove_dups (omap (var_owner w) vs)).

(** Modelled from the spec: the constructor of
    [aesara.graph.fg.FunctionGraph], "an explicit container over a set of
    designated input Values, a set of designated output Values, and a
    derived client index", in which a designated output has the sentinel
    consumer.  With [clone] the graph is copied first and the container is
    built over the copies; without [inputs] the leaves upstream of the
    outputs are the inputs.  The result is the handle of the new object. *)
Definition FunctionGraph_new (inputs : option (list nat)) (outputs : list nat)
    (clone : bool) : M nat := λ w,
  let memo := λ v, if clone then v + length (variables w) else v in
  let w1 := if clone then copy_objects w else w in
  let outputs := memo <$> outputs in
  let inputs :=
    match inputs with
    | Some l => memo <$> l
    | None => graph_inputs w1 outputs
    end in
  let g0 := mkFunctionGraph inputs outputs [] (foldl setdefault ∅ inputs) in
  let g1 := foldl (import_var w1) g0 outputs in
  let g2 :=
    with_clients g1
      (foldl (λ cl io, add_client cl io.2 (ClientOutput, io.1))
         (clients g1) (imap pair outputs)) in
  (Ok (length (fgraphs w1)), with_fgraphs w1 (fgraphs w1 ++ [g2])).

Definition subst_var (old new x : nat) : nat :=
  if decide (x = old) then new else x.

Definition subst_inputs (old new : nat) (a : Apply) : Apply :=
  mkApply (op a) (subst_var old new <$> inputs a) (outputs a).

(** Modelled from the spec: the rewiring of [FunctionGraph.replace].
    Every consumer edge of the graph [fgraph] that points at [old] is made
    to point at [new]: the inputs of the tracked nodes, the designated
    outputs, and the client index with them. *)
Definition rewire (fgraph old new : nat) (w : World) : World :=
  match fgraphs w !! fgraph with
  | None => w
  | Some g =>
      if decide (old = new) then w
      else
        let cl := clients g in
        let g' :=
          mkFunctionGraph (fg_inputs g) (subst_var old new <$> fg_outputs g)
            (apply_nodes g)
            (<[old := []]>
               (<[new := default [] (cl !! new) ++ default [] (cl !! old)]> cl)) in
        mkWorld (variables w)
          (foldl (λ l n, alter (subst_inputs old new) n l) (applies w) (apply_nodes g))
          (<[fgraph := g']> (fgraphs w))
          (calls w)
  end.

(** Modelled from the spec: [FunctionGraph.replace], which "rewires every
    consumer edge currently pointing at [old_value] to point at
    [new_value] instead; updates the client index; fails if [old_value] is
    not part of the graph's tracked value set", and removes no node. *)
Definition replace (fgraph old new : nat) : M unit := λ w,
  match fgraphs w !! fgraph with
  | None => (Raise MalformedSubstitution, w)
  | Some g =>
      if decide (is_Some (clients g !! old)) then
        (Ok tt,
         rewire fgraph old new
           (with_fgraphs w (<[fgraph := import_var w g new]> (fgraphs w))))
      else (Raise MalformedSubstitution, w)
  end.

(** Modelled from the spec: the test of the merge pass.  Two nodes
    compute identical results when they apply the same operation to the
    same input Variables. *)
Definition same_computation (w : World) (n1 n2 : nat) : bool :=
  bool_decide (node_op w n1 = node_op w n2)
  && bool_decide (node_inputs w n1 = node_inputs w n2)
  && bool_decide (length (node_outputs w n1) = length (node_outputs w n2)).

Definition has_clients (g : FunctionGraph) (v : nat) : bool :=
  match clients g !! v with
  | Some (_ :: _) => true
  | _ => false
  end.

(** Modelled from the spec: a node is in use when one of its outputs has
    a consumer. *)
Definition in_use (w : World) (g : FunctionGraph) (n : nat) : bool :=
  existsb (has_clients g) (node_outputs w n).

Definition mergeable (w : World) (g : FunctionGraph) (n1 n2 : nat) : bool :=
  negb (bool_decide (n1 = n2)) && in_use w g n1 && in_use w g n2
  && same_computation w n1 n2.

(** Modelled from the spec: the first pair of tracked nodes that the
    merge pass can unify. *)
Fixpoint find_duplicate (w : World) (g : FunctionGraph) (ns : list nat)
    : option (nat * nat) :=
  match ns with
  | [] => None
  | n1 :: rest =>
      match list_find (λ n2, mergeable w g n1 n2 = true) rest with
      | Some (_, n2) => Some (n1, n2)
      | None => find_duplicate w g rest
      end
  end.

(** Modelled from the spec: one unification of the merge pass.  The
    outputs of the second node of the pair are replaced by the outputs of
    the first, output by output. *)
Definition merge_step (fgraph : nat) (w : World) : option World :=
  g ← fgraphs w !! fgraph;
  '(n1, n2) ← find_duplicate w g (apply_nodes g);
  Some (foldl (λ w' oo, rewire fgraph oo.1 oo.2 w') w
          (zip (node_outputs w n2) (node_outputs w n1))).

Fixpoint merge_loop (fuel : nat) (fgraph : nat) (w : World) : World :=
  match fuel with
  | O => w
  | S fuel' =>
      match merge_step fgraph w with
      | Some w' => merge_loop fuel' fgraph w'
      | None => w
      end
  end.

(** Modelled from the spec: the merge pass,
    [aesara.graph.opt.MergeOptimizer().optimize(fgraph)], after which
    "any two Values that are proven to compute identical results are
    rewritten so that their owning Nodes become reference-identical",
    while "for leaf Values with no owner, no rewrite occurs".  Every
    unification takes one node out of use, so as many rounds as there are
    tracked nodes exhaust the pairs. *)
Definition MergeOptimizer_optimize (fgraph : nat) : M unit := λ w,
  let fuel := default 0 (length ∘ apply_nodes <$> fgraphs w !! fgraph) in
  (Ok tt, merge_loop fuel fgraph w).

(** Modelled from the spec: structural equality of two Variables under
    the assumed pairs [common].  An assumed pair and one and the same
    Variable are equal; two derived Variables are equal when they sit at
    the same output position of nodes that apply the same operation to
    pairwise equal inputs. *)
Fixpoint equal_vars (w : World) (common : list (nat * nat)) (fuel : nat)
    (x y : nat) : bool :=
  bool_decide ((x, y) ∈ common) || bool_decide (x = y)
  || match fuel with
     | O => false
     | S fuel' =>
         match var_owner w x, var_owner w y with
         | Some nx, Some ny =>
             bool_decide (var_index w x = var_index w y)
             && bool_decide (node_op w nx = node_op w ny)
             && bool_decide (length (node_inputs w nx) = length (node_inputs w ny))
             && forallb (λ ab, equal_vars w common fuel' ab.1 ab.2)
                  (zip (node_inputs w nx) (node_inputs w ny))
         | _, _ => false
         end
     end.

Definition structurally_equal (w : World) (xs ys : list nat)
    (in_xs in_ys : option (list nat)) : bool :=
  let common := zip (default [] in_xs) (default [] in_ys) in
  bool_decide (length xs = length ys)
  && bool_decide (length (default [] in_xs) = length (default [] in_ys))
  && forallb (λ ab, equal_vars w common (length (variables w)) ab.1 ab.2)
       (zip xs ys).

Definition record_call (e : event) (w : World) : World :=
  mkWorld (variables w) (applies w) (fgraphs w) (calls w ++ [e]).

(** Modelled from the spec: the structural comparator,
    [aesara.graph.basic.equal_computations], which "compares two lists of
    output Values for structural (not merge-based) equality, treating each
    [assumed_equal_xs[i]]/[assumed_equal_ys[i]] pair as a free axiom of
    equality during comparison".  The call is recorded in [calls]. *)
Definition equal_computations (xs ys : list nat) (in_xs in_ys : option (list nat))
    : M bool := λ w,
  (Ok (structurally_equal w xs ys in_xs in_ys),
   record_call (CallEqualComputations xs ys in_xs in_ys) w).

(** ** [is_same_graph_with_merge] *)

(** The comparison that ends [is_same_graph_with_merge]: [vars_replaced]
    with the owners [o1, o2] of its two elements. *)
Definition compare_replaced (w : World) (vars_replaced : list nat) : result bool :=
  match vars_replaced with
  | [r1; r2] =>
      let o1 := var_owner w r1 in
      let o2 := var_owner w r2 in
      if bool_decide (o1 = None) && bool_decide (o2 = None)
      then Ok (bool_decide (r1 = r2))
      else Ok (bool_decide (o1 = o2))
  | _ => Raise ValueError
  end.

Definition is_same_graph_with_merge (var1 var2 : nat)
    (givens : option (list (nat * nat))) : M bool :=
  let givens := default [] givens in
  let* (vars, givens) := deepcopy var1 var2 givens in
  let* inputs := read (λ w, graph_inputs w vars) in
  let* fgraph := FunctionGraph_new (Some inputs) vars false in
  let* _ := for_each givens (λ kv, replace fgraph kv.1 kv.2) in
  let* _ := MergeOptimizer_optimize fgraph in
  let* outs := read (λ w, default [] (fg_outputs <$> fgraphs w !! fgraph)) in
  let vars_replaced := (λ v, dict_get givens v v) <$> outs in
  λ w, (compare_replaced w vars_replaced, w).

(** ** [is_same_graph] *)

(** [in_var(x, k)]: [x in all_vars[k - 1]]. *)
Definition in_var (all_vars : list (list nat)) (x k : nat) : bool :=
  bool_decide (x ∈ default [] (all_vars !! (k - 1))).

(** The loop over [givens.items()] that fills [in_xs] and [in_ys]; the
    result is [(ok, in_xs, in_ys)] at the end of the loop or at the
    [break]. *)
Fixpoint separate (all_vars : list (list nat)) (items : list (nat * nat))
    (in_xs in_ys : list nat) : bool * list nat * list nat :=
  match items with
  | [] => (true, in_xs, in_ys)
  | (to_replace, replace_by) :: items' =>
      if in_var all_vars to_replace 1 && negb (in_var all_vars to_replace 2)
         && in_var all_vars replace_by 2 && negb (in_var all_vars replace_by 1)
      then separate all_vars items' (in_xs ++ [to_replace]) (in_ys ++ [replace_by])
      else if in_var all_vars to_replace 2 && negb (in_var all_vars to_replace 1)
              && in_var all_vars replace_by 1 && negb (in_var all_vars replace_by 2)
      then separate all_vars items' (in_xs ++ [replace_by]) (in_ys ++ [to_replace])
      else (false, in_xs, in_ys)
  end.

(** [all_vars]: the Variables of the graph of [var1] and of [var2]. *)
Definition all_vars_of (w : World) (var1 var2 : nat) : list (list nat) :=
  let inputs_var := [graph_inputs w [var1]; graph_inputs w [var2]] in
  [vars_between w (default [] (inputs_var !! 0)) [var1];
   vars_between w (default [] (inputs_var !! 1)) [var2]].

(** [givens] is [None], or the items of a dict or of any iterable of pairs
    in their order; [dict] leaves the items of a dict as they are. *)
Definition is_same_graph (var1 var2 : nat) (givens : option (list (nat * nat)))
    : M bool :=
  let givens :=
    match givens with
    | None => []
    | Some items => dict_of_pairs items
    end in
  let* rval1 := is_same_graph_with_merge var1 var2 (Some givens) in
  let* (use_equal_computations, in_xs, in_ys) :=
    match givens with
    | _ :: _ =>
        let* all_vars := read (λ w, all_vars_of w var1 var2) in
        match separate all_vars givens [] [] with
        | (ok, in_xs, in_ys) => ret (ok, Some in_xs, Some in_ys)
        end
    | [] => ret (true, None, None)
    end in
  let* _ :=
    if use_equal_computations : bool then
      let* rval2 := equal_computations [var1] [var2] in_xs in_ys in
      assert (bool_decide (rval2 = rval1))
    else ret tt in
  ret rval1.

(** ** [optimize_graph] *)

(** The argument and the result of [optimize_graph]: a [Variable] or a
    [FunctionGraph]. *)
Inductive graph_arg :=
  | ArgVariable (v : nat)
  | ArgFunctionGraph (fgraph : nat).

Section OptimizationDriver.

(** The pass registry: [optdb.query(OptimizationQuery(include, **kwargs))]
    returns a pass object, [opt.optimize(fgraph)] runs a pass over a
    graph in place, and [truthy] is the truth value of a pass object. *)
Context {Optimizer Kwargs : Type}.
Variable optdb_query : list string → Kwargs → M Optimizer.
Variable optimize : Optimizer → nat → M unit.
Variable truthy : Optimizer → bool.

Definition optimize_graph (fgraph : graph_arg) (include : option (list string))
    (custom_opt : option Optimizer) (clone : bool) (kwargs : Kwargs)
    : M graph_arg :=
  let include := default ["canonicalize"%string] include in
  let* (fgraph, return_only_out) :=
    match fgraph with
    | ArgFunctionGraph fgraph => ret (fgraph, false)
    | ArgVariable v =>
        let* fgraph := FunctionGraph_new None [v] clone in
        ret (fgraph, true)
    end in
  let* canonicalize_opt := optdb_query include kwargs in
  let* _ := optimize canonicalize_opt fgraph in
  let* _ :=
    match custom_opt with
    | Some opt => if truthy opt then optimize opt fgraph else ret tt
    | None => ret tt
    end in
  if return_only_out : bool then
    let* outs := read (λ w, default [] (fg_outputs <$> fgraphs w !! fgraph)) in
    match outs !! 0 with
    | Some out => ret (ArgVariable out)
    | None => raise IndexError
    end
  else ret (ArgFunctionGraph fgraph).

(** The passes of one call, run in order over the graph [fgraph]. *)
Definition run_passes (include : option (list string))
    (custom_opt : option Optimizer) (kwargs : Kwargs) (fgraph : nat) : M unit :=
  let* canonicalize_opt :=
    optdb_query (default ["canonicalize"%string] include) kwargs in
  let* _ := optimize canonicalize_opt fgraph in
  match custom_opt with
  | Some opt => if truthy opt then optimize opt fgraph else ret tt
  | None => ret tt
  end.

End OptimizationDriver.
(** ** Building graphs *)

Definition empty_world : World := mkWorld [] [] [] [].

(** A new leaf Variable; its handle is the length of the arena before. *)
Definition new_leaf (nm : string) (w : World) : World :=
  mkWorld (variables w ++ [mkVariable None None nm]) (applies w) (fgraphs w) (calls w).

(** A new [Apply] node of [nout] outputs over existing inputs, with its
    fresh output Variables. *)
Definition new_apply (o : string) (ins : list nat) (nout : nat) (w : World) : World :=
  let n := length (applies w) in
  let v0 := length (variables w) in
  mkWorld
    (variables w ++ ((λ i, mkVariable (Some n) (Some i) o) <$> seq 0 nout))
    (applies w ++ [mkApply o ins (seq v0 nout)])
    (fgraphs w) (calls w).

(** [x], [y], the constant [1], [x + 1] and [y + 1]: handles 0 to 4. *)
Definition world_xy : World :=
  new_apply "add" [1; 2] 1
    (new_apply "add" [0; 2] 1
       (new_leaf "1" (new_leaf "y" (new_leaf "x" empty_world)))).

(** One node with two outputs over the leaf [x]: handles 1 and 2. *)
Definition world_split : World :=
  new_apply "split" [0] 2 (new_leaf "x" empty_world).

(** The chain [h(g(f(x)))] (nodes 0, 1 and 2) and, at handle 0, the graph
    from [x] to its end. *)
Definition world_chain : World :=
  (FunctionGraph_new (Some [0]) [3] false
     (new_apply "h" [2] 1
        (new_apply "g" [1] 1
           (new_apply "f" [0] 1 (new_leaf "x" empty_world))))).2.
(** ** Notions used to state the properties *)

(** The dict that [is_same_graph] works with. *)
Definition givens_dict (givens : option (list (nat * nat))) : list (nat * nat) :=
  match givens with
  | None => []
  | Some items => dict_of_pairs items
  end.

(** The comparator call of [is_same_graph] and the assertion after it. *)
Definition cross_validate (var1 var2 : nat) (in_xs in_ys : option (list nat))
    (rval1 : bool) (w : World) : result bool * World :=
  ((if bool_decide (structurally_equal w [var1] [var2] in_xs in_ys = rval1)
    then Ok rval1 else Raise AssertionError),
   record_call (CallEqualComputations [var1] [var2] in_xs in_ys) w).

(** The separability test on one [(source, target)] pair of the dict:
    one of the two is in the graph of [var1] only and the other in the
    graph of [var2] only. *)
Definition cleanly_separable (all_vars : list (list nat)) (kv : nat * nat) : bool :=
  (in_var all_vars kv.1 1 && negb (in_var all_vars kv.1 2)
   && in_var all_vars kv.2 2 && negb (in_var all_vars kv.2 1))
  || (in_var all_vars kv.1 2 && negb (in_var all_vars kv.1 1)
      && in_var all_vars kv.2 1 && negb (in_var all_vars kv.2 2)).

(** The member of a pair on the side of [var1], and its counterpart. *)
Definition on_side1 (all_vars : list (list nat)) (kv : nat * nat) : nat :=
  if in_var all_vars kv.1 1 then kv.1 else kv.2.

Definition on_side2 (all_vars : list (list nat)) (kv : nat * nat) : nat :=
  if in_var all_vars kv.1 1 then kv.2 else kv.1.

(** The dict as [is_same_graph_with_merge] copies it in the store [w]. *)
Definition copied_givens (w : World) (givens : option (list (nat * nat)))
    : list (nat * nat) :=
  prod_map (λ v, v + length (variables w)) (λ v, v + length (variables w))
    <$> default [] givens.

(** The outputs of the graph that a call started in [w] builds, read in
    [w'] and remapped through the copied dict. *)
Definition remapped_outputs (w w' : World) (givens : option (list (nat * nat)))
    : list nat :=
  (λ v, dict_get (copied_givens w givens) v v)
    <$> default [] (fg_outputs <$> fgraphs w' !! length (fgraphs w)).

(** The two designated outputs of the graph [fgraph] are one Variable. *)
Definition outputs_aliased (fgraph : nat) (w : World) : Prop :=
  ∃ g o, fgraphs w !! fgraph = Some g ∧ fg_outputs g = [o; o].

(** Every object of [w] is in [w'] at its handle, with the fields it had. *)
Definition preserved (w w' : World) : Prop :=
  variables w `prefix_of` variables w'
  ∧ applies w `prefix_of` applies w'
  ∧ fgraphs w `prefix_of` fgraphs w'.

(** The Variables from the handle [bv] on and the nodes from the handle
    [bn] on refer to one another only. *)
Definition closed_above (bv bn : nat) (w : World) : Prop :=
  (∀ v n, bv ≤ v → var_owner w v = Some n → bn ≤ n)
  ∧ (∀ n a, bn ≤ n → applies w !! n = Some a →
       (∀ x, x ∈ inputs a → bv ≤ x) ∧ (∀ x, x ∈ outputs a → bv ≤ x)).

(** The graph [fgraph] tracks nodes from the handle [bn] on only. *)
Definition tracks_above (bn fgraph : nat) (w : World) : Prop :=
  ∀ g n, fgraphs w !! fgraph = Some g → n ∈ apply_nodes g → bn ≤ n.

(** The objects below the handles [bv], [bn], [bf] are the same in [w]
    and [w']. *)
Definition same_below (bv bn bf : nat) (w w' : World) : Prop :=
  take bv (variables w') = take bv (variables w)
  ∧ take bn (applies w') = take bn (applies w)
  ∧ take bf (fgraphs w') = take bf (fgraphs w).

(** The graph [fgraph] is private to the objects from [bv] and [bn] on. *)
Definition private_graph (bv bn fgraph : nat) (w : World) : Prop :=
  closed_above bv bn w ∧ tracks_above bn fgraph w.

(** ** Notions used to state further properties *)

(** The node [m] consumes an output of the node [n] in the graph
    [fgraph]. *)
Definition client_edge (w : World) (fgraph n m : nat) : Prop :=
  ∃ v cs pos,
    v ∈ node_outputs w n
    ∧ fg_clients w fgraph v = Some cs
    ∧ (ClientApply m, pos) ∈ cs.

(** [m] is [d] client edges downstream of [n]. *)
Fixpoint downstream (w : World) (fgraph : nat) (d : nat) (n m : nat) : Prop :=
  match d with
  | O => n = m
  | S d' => ∃ k, client_edge w fgraph n k ∧ downstream w fgraph d' k m
  end.

(** The graph of [world_xy] and one more leaf, [z], at handle 5. *)
Definition world_xyz : World := new_leaf "z" world_xy.

(** [f(x)] consumed twice by [g]: [g(f(x), f(x))], and at handle 0 the
    graph from [x] to the output of [g]. *)
Definition world_diamond : World :=
  (FunctionGraph_new (Some [0]) [2] false
     (new_apply "g" [1; 1] 1
        (new_apply "f" [0] 1 (new_leaf "x" empty_world)))).2.

(** [v] is a leaf Variable of the store: it exists and has no owner. *)
Definition is_leaf (w : World) (v : nat) : Prop :=
  ∃ x, variables w !! v = Some x ∧ owner x = None.

(** The graph [fgraph] has exactly two designated outputs. *)
Definition two_outputs (fgraph : nat) (w : World) : Prop :=
  ∃ g a b, fgraphs w !! fgraph = Some g ∧ fg_outputs g = [a; b].

(** The chain [h(g(f(x)))] and, at handle 0, a graph that ends at the
    output of [f]: it does not track [g] and [h]. *)
Definition world_partial : World :=
  (FunctionGraph_new (Some [0]) [1] false
     (new_apply "h" [2] 1
        (new_apply "g" [1] 1
           (new_apply "f" [0] 1 (new_leaf "x" empty_world))))).2.

(** ** Properties of the traversal *)

Lemma gen_seq_done_r {A} (g : gen A) : gen_seq g gen_done = g.
Proof. destruct g as [ys [e|]]; simpl; [done | by rewrite app_nil_r]. Qed.

Lemma gen_for_singleton {A B} (x : A) (body : A → gen B) :
  gen_for [x] body = body x.
Proof. simpl. apply gen_seq_done_r. Qed.

Lemma gen_for_yield {A B} (l : list A) (f : A → B) :
  gen_for l (λ x, gen_yield (f x)) = (f <$> l, None).
Proof.
  induction l as [|x l IH]; [done |].
  simpl. rewrite IH. done.
Qed.

(** The model unfolds as the source reads: one pass over [node.outputs],
    a test [depth > 0], the recursive call at [depth - 1]. *)
Lemma get_clients_at_depth_unfold w fgraph node depth :
  get_clients_at_depth w fgraph node depth =
  gen_for (node_outputs w node) (λ node,
    if (0 <? depth)%Z then
      match fg_clients w fgraph node with
      | None => gen_raise KeyError
      | Some cs =>
          gen_for cs (λ '(out_node, _),
            match out_node with
            | ClientOutput => gen_done
            | ClientApply out_node =>
                get_clients_at_depth w fgraph out_node (depth - 1)
            end)
      end
    else gen_yield (var_owner w node)).
Proof.
  unfold get_clients_at_depth.
  destruct (Z.ltb_spec 0 depth) as [Hpos|Hneg].
  - replace (Z.to_nat depth) with (S (Z.to_nat (depth - 1))) by lia.
    reflexivity.
  - replace (Z.to_nat depth) with 0 by lia.
    reflexivity.
Qed.

Lemma clients_at_depth_chain w fgraph chain :
  linear_chain w fgraph chain →
  ∀ n rest d, chain = n :: rest →
    clients_at_depth w fgraph d n =
    match (n :: rest) !! d with
    | Some m => ([Some m], None)
    | None => ([], None)
    end.
Proof.
  induction chain as [|n0 rest0 IH]; [done |].
  intros Hchain n rest d [= <- <-].
  destruct Hchain as (v & pos & _ & Hout & Hown & Htail).
  destruct d as [|d].
  - simpl. rewrite Hout. simpl. rewrite Hown. done.
  - simpl clients_at_depth. rewrite Hout, gen_for_singleton.
    destruct rest0 as [|m rest1].
    + rewrite Htail. done.
    + destruct Htail as [-> Hrest].
      rewrite gen_for_singleton.
      apply (IH Hrest m rest1 d eq_refl).
Qed.

Lemma linear_chain_drop w fgraph chain :
  ∀ k node, linear_chain w fgraph chain → chain !! k = Some node →
            linear_chain w fgraph (node :: drop (S k) chain).
Proof.
  induction chain as [|n rest IH]; intros k node Hchain Hk; [done |].
  destruct k as [|k].
  - injection Hk as <-. exact Hchain.
  - simpl in Hk. simpl drop. apply IH; [|done].
    destruct Hchain as (v & pos & _ & _ & _ & Htail).
    destruct rest as [|m rest']; [done |]. apply Htail.
Qed.

Lemma clients_at_depth_zero w fgraph node :
  clients_at_depth w fgraph 0 node = (var_owner w <$> node_outputs w node, None).
Proof.
  change (clients_at_depth w fgraph 0 node)
    with (gen_for (node_outputs w node) (λ v, gen_yield (var_owner w v))).
  apply gen_for_yield.
Qed.

(** C7: in a linear chain of [N] nodes, the traversal from the node at
    position [k] at a depth [d] between 0 and the number [N - 1 - k] of
    nodes that follow it yields exactly the node [d] steps downstream and
    raises nothing; at a larger depth the ["output"] consumer of the last
    node is skipped, and the traversal yields nothing and raises nothing. *)
Theorem get_clients_at_depth_linear_chain w fgraph chain k node (d : Z) :
  linear_chain w fgraph chain →
  chain !! k = Some node →
  (0 ≤ d)%Z →
  ((d ≤ Z.of_nat (length chain - 1 - k))%Z →
     ∃ m, chain !! (k + Z.to_nat d) = Some m
          ∧ get_clients_at_depth w fgraph node d = ([Some m], None))
  ∧ ((Z.of_nat (length chain - 1 - k) < d)%Z →
     get_clients_at_depth w fgraph node d = ([], None)).
Proof.
  intros Hchain Hk Hd. unfold get_clients_at_depth.
  pose proof (lookup_lt_Some _ _ _ Hk) as Hlt.
  rewrite (clients_at_depth_chain _ _ _ (linear_chain_drop _ _ _ _ _ Hchain Hk)
             node (drop (S k) chain) _ eq_refl).
  assert (Hsuffix : ∀ i, (node :: drop (S k) chain) !! i = chain !! (k + i)).
  { intros [|i]; simpl.
    - by rewrite Nat.add_0_r.
    - rewrite lookup_drop. f_equal. lia. }
  rewrite Hsuffix.
  split; intros Hle.
  - destruct (lookup_lt_is_Some_2 chain (k + Z.to_nat d)) as [m Hm]; [lia |].
    exists m. by rewrite Hm.
  - rewrite (lookup_ge_None_2 chain (k + Z.to_nat d)) by lia. done.
Qed.

(** C9: at any depth less than or equal to zero the traversal yields the
    owner of each output Variable of the node, one per output and in
    order, follows no client edge and raises nothing. *)
Theorem get_clients_at_depth_nonpositive w fgraph node (depth : Z) :
  (depth ≤ 0)%Z →
  get_clients_at_depth w fgraph node depth =
  (var_owner w <$> node_outputs w node, None).
Proof.
  intros Hle. unfold get_clients_at_depth.
  replace (Z.to_nat depth) with 0 by lia.
  apply clients_at_depth_zero.
Qed.

(** C8 as amended: a negative depth is not rejected; the call runs to its
    end without an exception and yields what depth zero yields. *)
Theorem get_clients_at_depth_negative w fgraph node (depth : Z) :
  (depth < 0)%Z →
  get_clients_at_depth w fgraph node depth = get_clients_at_depth w fgraph node 0
  ∧ (get_clients_at_depth w fgraph node depth).2 = None.
Proof.
  intros Hneg. unfold get_clients_at_depth.
  replace (Z.to_nat depth) with 0 by lia.
  split; [done |].
  change (Z.to_nat 0) with 0. by rewrite clients_at_depth_zero.
Qed.

(** ** Further properties of the traversal *)

Lemma gen_seq_elem {A} (g1 g2 : gen A) x :
  x ∈ (gen_seq g1 g2).1 ↔ x ∈ g1.1 ∨ (g1.2 = None ∧ x ∈ g2.1).
Proof.
  destruct g1 as [ys [e|]]; simpl.
  - split; [by left | by intros [?|[? _]]].
  - rewrite elem_of_app. split; intros [?|?]; auto. right. tauto.
Qed.

Lemma gen_seq_exn {A} (g1 g2 : gen A) :
  (gen_seq g1 g2).2 = match g1.2 with Some e => Some e | None => g2.2 end.
Proof. by destruct g1 as [ys [e|]]. Qed.

Lemma gen_for_elem {A B} (l : list A) (body : A → gen B) x :
  x ∈ (gen_for l body).1 → ∃ a, a ∈ l ∧ x ∈ (body a).1.
Proof.
  induction l as [|a l IH]; simpl.
  - by intros ?%elem_of_nil.
  - rewrite gen_seq_elem. intros [Hx|[_ Hx]].
    + exists a. split; [apply list_elem_of_here | done].
    + destruct (IH Hx) as (b & Hb & Hxb).
      exists b. split; [by apply list_elem_of_further | done].
Qed.

Lemma gen_for_exn {A B} (l : list A) (body : A → gen B) e :
  (gen_for l body).2 = Some e → ∃ a, a ∈ l ∧ (body a).2 = Some e.
Proof.
  induction l as [|a l IH]; simpl; [done |].
  rewrite gen_seq_exn. destruct (body a).2 as [e'|] eqn:Ha.
  - intros [= <-]. exists a. split; [apply list_elem_of_here | done].
  - intros He. destruct (IH He) as (b & Hb & Hbe).
    exists b. split; [by apply list_elem_of_further | done].
Qed.

Lemma gen_for_no_exn {A B} (l : list A) (body : A → gen B) :
  (gen_for l body).2 = None →
  ∀ a, a ∈ l → (body a).2 = None ∧ ∀ x, x ∈ (body a).1 → x ∈ (gen_for l body).1.
Proof.
  induction l as [|a l IH]; simpl.
  - intros _ b Hb. by apply elem_of_nil in Hb.
  - rewrite gen_seq_exn. destruct (body a).2 as [e'|] eqn:Ha; [done |].
    intros Hrest b [->|Hb]%elem_of_cons.
    + split; [done |]. intros x Hx. apply gen_seq_elem. by left.
    + destruct (IH Hrest b Hb) as [Hbe Hbx]. split; [done |].
      intros x Hx. apply gen_seq_elem. right. split; [done | by apply Hbx].
Qed.

Lemma gen_for_raises {A B} (l : list A) (body : A → gen B) a :
  a ∈ l → is_Some (body a).2 → is_Some (gen_for l body).2.
Proof.
  intros Ha Hraise. destruct (gen_for l body).2 as [e|] eqn:He; [by eexists |].
  destruct (gen_for_no_exn l body He a Ha) as [Hnone _].
  rewrite Hnone in Hraise. by destruct Hraise.
Qed.

Lemma gen_for_all_done {A B} (l : list A) (body : A → gen B) :
  (∀ a, a ∈ l → body a = gen_done) → gen_for l body = gen_done.
Proof.
  induction l as [|a l IH]; intros Hl; [done |].
  simpl. rewrite (Hl a) by apply list_elem_of_here.
  rewrite IH; [done |]. intros b Hb. by apply Hl, list_elem_of_further.
Qed.

Lemma gen_for_ext {A B} (l : list A) (f g : A → gen B) :
  (∀ a, f a = g a) → gen_for l f = gen_for l g.
Proof.
  intros Hfg. induction l as [|a l IH]; [done |].
  simpl. by rewrite Hfg, IH.
Qed.

(** What the body of the loop of [get_clients_at_depth] does for one
    client. *)
Lemma clients_at_depth_succ w fgraph d node :
  clients_at_depth w fgraph (S d) node =
  gen_for (node_outputs w node) (λ v,
    match fg_clients w fgraph v with
    | None => gen_raise KeyError
    | Some cs =>
        gen_for cs (λ c,
          match c.1 with
          | ClientOutput => gen_done
          | ClientApply out_node => clients_at_depth w fgraph d out_node
          end)
    end).
Proof.
  change (clients_at_depth w fgraph (S d) node) with
    (gen_for (node_outputs w node) (λ v,
       match fg_clients w fgraph v with
       | None => gen_raise KeyError
       | Some cs =>
           gen_for cs (λ '(out_node, _),
             match out_node with
             | ClientOutput => gen_done
             | ClientApply out_node => clients_at_depth w fgraph d out_node
             end)
       end)).
  apply gen_for_ext. intros v.
  destruct (fg_clients w fgraph v) as [cs|]; [|done].
  apply gen_for_ext. by intros [c pos].
Qed.

Lemma clients_at_depth_sound w fgraph d :
  ∀ node o, o ∈ (clients_at_depth w fgraph d node).1 →
    ∃ m v, downstream w fgraph d node m
           ∧ v ∈ node_outputs w m ∧ o = var_owner w v.
Proof.
  induction d as [|d IH]; intros node o.
  - rewrite clients_at_depth_zero. cbn [fst].
    intros (v & -> & Hv)%list_elem_of_fmap. by exists node, v.
  - rewrite clients_at_depth_succ.
    intros (v & Hv & Ho)%gen_for_elem.
    destruct (fg_clients w fgraph v) as [cs|] eqn:Hcs;
      [|by apply elem_of_nil in Ho].
    apply gen_for_elem in Ho as ([c pos] & Hc & Ho). cbn [fst] in Ho.
    destruct c as [k|]; [|by apply elem_of_nil in Ho].
    destruct (IH k o Ho) as (m & v' & Hpath & Hv' & ->).
    exists m, v'. split; [|done].
    exists k. split; [|done]. by exists v, cs, pos.
Qed.

Lemma clients_at_depth_complete w fgraph d :
  ∀ node m v,
    (clients_at_depth w fgraph d node).2 = None →
    downstream w fgraph d node m → v ∈ node_outputs w m →
    var_owner w v ∈ (clients_at_depth w fgraph d node).1.
Proof.
  induction d as [|d IH]; intros node m v.
  - rewrite clients_at_depth_zero. cbn [fst]. intros _ <- Hv.
    by apply list_elem_of_fmap_2.
  - rewrite clients_at_depth_succ.
    intros Hok (k & (u & cs & pos & Hu & Hcs & Hk) & Hpath) Hv.
    destruct (gen_for_no_exn _ _ Hok u Hu) as [Hok1 Hin1].
    apply Hin1. rewrite Hcs in Hok1 |- *.
    destruct (gen_for_no_exn _ _ Hok1 (ClientApply k, pos) Hk) as [Hok2 Hin2].
    apply Hin2. cbn [fst] in Hok2 |- *. by apply (IH k m v).
Qed.

Lemma clients_at_depth_exn w fgraph d :
  ∀ node e, (clients_at_depth w fgraph d node).2 = Some e → e = KeyError.
Proof.
  induction d as [|d IH]; intros node e.
  - by rewrite clients_at_depth_zero.
  - rewrite clients_at_depth_succ.
    intros (v & _ & He)%gen_for_exn.
    destruct (fg_clients w fgraph v) as [cs|]; [|by injection He as <-].
    apply gen_for_exn in He as ([c pos] & _ & He). cbn [fst] in He.
    destruct c as [k|]; [by apply (IH k) | done].
Qed.

(** X1: whatever [get_clients_at_depth] yields, before the end or before
    an exception, is the owner of an output Variable of a node that is
    exactly [depth] client edges downstream of the given node ([0] edges
    for a depth below zero). *)
Theorem get_clients_at_depth_sound w fgraph node (depth : Z) o :
  o ∈ (get_clients_at_depth w fgraph node depth).1 →
  ∃ m v, downstream w fgraph (Z.to_nat depth) node m
         ∧ v ∈ node_outputs w m ∧ o = var_owner w v.
Proof. apply clients_at_depth_sound. Qed.

(** X2: when [get_clients_at_depth] raises nothing, it misses nothing: for
    every node [m] that is [depth] client edges downstream and every
    output Variable of [m], the owner of that Variable is yielded. *)
Theorem get_clients_at_depth_complete w fgraph node (depth : Z) m v :
  (get_clients_at_depth w fgraph node depth).2 = None →
  downstream w fgraph (Z.to_nat depth) node m →
  v ∈ node_outputs w m →
  var_owner w v ∈ (get_clients_at_depth w fgraph node depth).1.
Proof. apply clients_at_depth_complete. Qed.

(** X3: the only exception of [get_clients_at_depth] is [KeyError], and at
    a positive depth it is raised as soon as an output Variable of the
    node is not a key of [fgraph.clients]. *)
Theorem get_clients_at_depth_key_error w fgraph node (depth : Z) :
  (∀ e, (get_clients_at_depth w fgraph node depth).2 = Some e → e = KeyError)
  ∧ (∀ v, (0 < depth)%Z → v ∈ node_outputs w node →
          fg_clients w fgraph v = None →
          (get_clients_at_depth w fgraph node depth).2 = Some KeyError).
Proof.
  split; [apply clients_at_depth_exn |].
  intros v Hpos Hv Hnone. unfold get_clients_at_depth.
  destruct (Z.to_nat depth) as [|d] eqn:Hd; [lia |].
  assert (Hraise : is_Some (clients_at_depth w fgraph (S d) node).2).
  { rewrite clients_at_depth_succ.
    apply (gen_for_raises _ _ v Hv). rewrite Hnone. by eexists. }
  destruct Hraise as [e He]. rewrite He. f_equal.
  by apply clients_at_depth_exn in He.
Qed.

(** X4: a node none of whose output Variables has an [Apply] consumer (the
    clients of each are ["output"] markers only, or none; a node without
    outputs is a case of it) yields nothing and raises nothing at every
    positive depth. *)
Theorem get_clients_at_depth_no_consumer w fgraph node (depth : Z) :
  (0 < depth)%Z →
  (∀ v, v ∈ node_outputs w node →
        ∃ cs, fg_clients w fgraph v = Some cs
              ∧ ∀ c, c ∈ cs → c.1 = ClientOutput) →
  get_clients_at_depth w fgraph node depth = ([], None).
Proof.
  intros Hpos Hout. unfold get_clients_at_depth.
  destruct (Z.to_nat depth) as [|d] eqn:Hd; [lia |].
  rewrite clients_at_depth_succ.
  apply gen_for_all_done. intros v Hv.
  destruct (Hout v Hv) as (cs & -> & Hcs).
  apply gen_for_all_done. intros c Hc. by rewrite (Hcs c Hc).
Qed.
(** ** Properties of the cross-validated oracle *)

Lemma is_same_graph_unfold var1 var2 givens w :
  is_same_graph var1 var2 givens w =
  match is_same_graph_with_merge var1 var2 (Some (givens_dict givens)) w with
  | (Raise e, w1) => (Raise e, w1)
  | (Ok rval1, w1) =>
      match givens_dict givens with
      | [] => cross_validate var1 var2 None None rval1 w1
      | _ :: _ =>
          match separate (all_vars_of w1 var1 var2) (givens_dict givens) [] [] with
          | (true, in_xs, in_ys) =>
              cross_validate var1 var2 (Some in_xs) (Some in_ys) rval1 w1
          | (false, _, _) => (Ok rval1, w1)
          end
      end
  end.
Proof.
  unfold is_same_graph. fold (givens_dict givens).
  unfold bind at 1.
  destruct (is_same_graph_with_merge _ _ _ w) as [[rval1|e] w1]; [|done].
  unfold cross_validate.
  destruct (givens_dict givens) as [|kv d].
  - unfold bind, ret, equal_computations, assert; simpl.
    by destruct (bool_decide _).
  - unfold bind at 1. unfold bind at 1. unfold read.
    destruct (separate _ _ _ _) as [[[] in_xs] in_ys].
    + unfold bind, ret, equal_computations, assert; simpl.
      by destruct (bool_decide _).
    + reflexivity.
Qed.

Lemma calls_not_extended (l : list event) (e : event) : l ≠ l ++ [e].
Proof.
  intros Heq. apply (f_equal length) in Heq.
  rewrite length_app in Heq. simpl in Heq. lia.
Qed.

(** C1: when a call of [is_same_graph] invokes the comparator (the call
    is on record after the merge-based check) and the comparator's answer
    differs from the merge-based one, the call raises [AssertionError] and
    returns no value; and a call that returns a value returns the
    merge-based result. *)
Theorem is_same_graph_cross_validation var1 var2 givens w :
  (∀ rval1 w1 xs ys in_xs in_ys,
     is_same_graph_with_merge var1 var2 (Some (givens_dict givens)) w = (Ok rval1, w1) →
     calls (is_same_graph var1 var2 givens w).2
       = calls w1 ++ [CallEqualComputations xs ys in_xs in_ys] →
     structurally_equal w1 xs ys in_xs in_ys ≠ rval1 →
     (is_same_graph var1 var2 givens w).1 = Raise AssertionError)
  ∧ (∀ b, (is_same_graph var1 var2 givens w).1 = Ok b →
       (is_same_graph_with_merge var1 var2 (Some (givens_dict givens)) w).1 = Ok b).
Proof.
  rewrite is_same_graph_unfold.
  destruct (is_same_graph_with_merge _ _ _ w) as [[rval|e] w1] eqn:Hmerge.
  2: { split; [intros; simplify_eq | done]. }
  assert (Hcv : ∀ in_xs0 in_ys0 xs ys in_xs in_ys,
    calls (cross_validate var1 var2 in_xs0 in_ys0 rval w1).2
      = calls w1 ++ [CallEqualComputations xs ys in_xs in_ys] →
    structurally_equal w1 xs ys in_xs in_ys ≠ rval →
    (cross_validate var1 var2 in_xs0 in_ys0 rval w1).1 = Raise AssertionError).
  { intros in_xs0 in_ys0 xs ys in_xs in_ys Hcalls Hne. simpl in *.
    apply app_inv_head in Hcalls. injection Hcalls as <- <- <- <-.
    by rewrite bool_decide_eq_false_2. }
  assert (Hret : ∀ in_xs0 in_ys0 b,
    (cross_validate var1 var2 in_xs0 in_ys0 rval w1).1 = Ok b → Ok rval = Ok b).
  { intros in_xs0 in_ys0 b. simpl. by destruct (bool_decide _). }
  destruct (givens_dict givens) as [|kv d].
  - split.
    + intros rval1 w1' xs ys in_xs in_ys [= <- <-]. apply Hcv.
    + intros b. simpl fst at 2. apply Hret.
  - destruct (separate _ _ _ _) as [[[] sxs] sys].
    + split.
      * intros rval1 w1' xs ys in_xs in_ys [= <- <-]. apply Hcv.
      * intros b. simpl fst at 2. apply Hret.
    + split; [|done].
      intros rval1 w1' xs ys in_xs in_ys [= <- <-] Hcalls. simpl in Hcalls.
      by apply calls_not_extended in Hcalls.
Qed.

Lemma separate_spec all_vars items :
  ∀ in_xs in_ys,
    separate all_vars items in_xs in_ys =
    if forallb (cleanly_separable all_vars) items
    then (true, in_xs ++ (on_side1 all_vars <$> items),
                in_ys ++ (on_side2 all_vars <$> items))
    else (false, (separate all_vars items in_xs in_ys).1.2,
                 (separate all_vars items in_xs in_ys).2).
Proof.
  induction items as [|[s t] items IH]; intros in_xs in_ys.
  - simpl. by rewrite !app_nil_r.
  - cbn [separate forallb]. rewrite !fmap_cons.
    change (cleanly_separable all_vars (s, t)) with
      ((in_var all_vars s 1 && negb (in_var all_vars s 2)
        && in_var all_vars t 2 && negb (in_var all_vars t 1))
       || (in_var all_vars s 2 && negb (in_var all_vars s 1)
           && in_var all_vars t 1 && negb (in_var all_vars t 2))).
    change (on_side1 all_vars (s, t)) with (if in_var all_vars s 1 then s else t).
    change (on_side2 all_vars (s, t)) with (if in_var all_vars s 1 then t else s).
    destruct (in_var all_vars s 1), (in_var all_vars s 2),
      (in_var all_vars t 1), (in_var all_vars t 2);
      cbn [andb orb negb]; try reflexivity;
      rewrite IH; destruct (forallb _ items);
      rewrite <- ?app_assoc; reflexivity.
Qed.

(** C6: with a non-empty dict, if one pair fails the separability test
    the call is the merge-based check alone (same result, same store, no
    comparator call); if every pair passes, the comparator is called once,
    on [[var1]] and [[var2]] with the aligned lists. *)
Theorem is_same_graph_all_or_nothing var1 var2 givens w rval1 w1 :
  givens_dict givens ≠ [] →
  is_same_graph_with_merge var1 var2 (Some (givens_dict givens)) w = (Ok rval1, w1) →
  ((∃ kv, kv ∈ givens_dict givens
          ∧ cleanly_separable (all_vars_of w1 var1 var2) kv = false) →
     is_same_graph var1 var2 givens w = (Ok rval1, w1))
  ∧ ((∀ kv, kv ∈ givens_dict givens →
            cleanly_separable (all_vars_of w1 var1 var2) kv = true) →
     is_same_graph var1 var2 givens w =
       cross_validate var1 var2
         (Some (on_side1 (all_vars_of w1 var1 var2) <$> givens_dict givens))
         (Some (on_side2 (all_vars_of w1 var1 var2) <$> givens_dict givens))
         rval1 w1
     ∧ calls (is_same_graph var1 var2 givens w).2 =
         calls w1 ++
         [CallEqualComputations [var1] [var2]
            (Some (on_side1 (all_vars_of w1 var1 var2) <$> givens_dict givens))
            (Some (on_side2 (all_vars_of w1 var1 var2) <$> givens_dict givens))]).
Proof.
  intros Hne Hmerge. rewrite is_same_graph_unfold, Hmerge.
  destruct (givens_dict givens) as [|kv0 d] eqn:Hd; [done |].
  rewrite separate_spec. split.
  - intros (kv & Hin & Hfail).
    assert (forallb (cleanly_separable (all_vars_of w1 var1 var2)) (kv0 :: d) = false) as ->.
    { apply not_true_is_false. intros Hall.
      rewrite forallb_forall in Hall.
      apply list_elem_of_In, Hall in Hin. congruence. }
    reflexivity.
  - intros Hall.
    assert (forallb (cleanly_separable (all_vars_of w1 var1 var2)) (kv0 :: d) = true) as ->.
    { apply forallb_forall. intros kv Hin. by apply Hall, list_elem_of_In. }
    done.
Qed.

(** ** Further properties of the oracle *)

Lemma dict_set_keys d k v :
  (dict_set d k v).*1 = if decide (k ∈ d.*1) then d.*1 else d.*1 ++ [k].
Proof.
  induction d as [|[k' v'] d IH].
  - destruct (decide (k ∈ ([] : list (nat * nat)).*1)) as [Hin|Hnin]; [|done].
    by apply elem_of_nil in Hin.
  - cbn [dict_set]. rewrite !fmap_cons. cbn [fst].
    destruct (decide (k' = k)) as [->|Hne].
    + rewrite fmap_cons. cbn [fst].
      destruct (decide (k ∈ k :: d.*1)) as [Hin|Hnin]; [done |].
      exfalso. apply Hnin, list_elem_of_here.
    + rewrite fmap_cons, IH. cbn [fst].
      destruct (decide (k ∈ d.*1)) as [Hin|Hnin],
               (decide (k ∈ k' :: d.*1)) as [Hin'|Hnin']; try done.
      * exfalso. by apply Hnin', list_elem_of_further.
      * apply elem_of_cons in Hin' as [?|?]; congruence.
Qed.

Lemma dict_set_fresh d k v : k ∉ d.*1 → dict_set d k v = d ++ [(k, v)].
Proof.
  induction d as [|[k' v'] d IH]; simpl; [done |].
  rewrite not_elem_of_cons. intros [Hne Hnin].
  rewrite decide_False by done. by rewrite IH.
Qed.

Lemma dict_set_NoDup d k v : NoDup d.*1 → NoDup (dict_set d k v).*1.
Proof.
  intros Hd. rewrite dict_set_keys.
  destruct (decide (k ∈ d.*1)) as [Hin|Hnin]; [done |].
  apply NoDup_app. repeat split; [done | | apply NoDup_singleton].
  intros x Hx ->%list_elem_of_singleton. done.
Qed.

Lemma foldl_dict_set_NoDup (pairs : list (nat * nat)) :
  ∀ d, NoDup d.*1 → NoDup (foldl (λ d kv, dict_set d kv.1 kv.2) d pairs).*1.
Proof.
  induction pairs as [|kv pairs IH]; intros d Hd; [done |].
  simpl. by apply IH, dict_set_NoDup.
Qed.

Lemma dict_of_pairs_NoDup pairs : NoDup (dict_of_pairs pairs).*1.
Proof. apply foldl_dict_set_NoDup. simpl. apply NoDup_nil_2. Qed.

Lemma foldl_dict_set_distinct (d : list (nat * nat)) :
  ∀ acc, NoDup (acc ++ d).*1 →
         foldl (λ d kv, dict_set d kv.1 kv.2) acc d = acc ++ d.
Proof.
  induction d as [|[k v] d IH]; intros acc Hnd.
  - by rewrite app_nil_r.
  - simpl. rewrite dict_set_fresh.
    + rewrite IH; rewrite <- app_assoc; done.
    + rewrite fmap_app in Hnd. apply NoDup_app in Hnd as (_ & Hdisj & _).
      intros Hin. apply (Hdisj k Hin). apply list_elem_of_here.
Qed.

Lemma dict_of_pairs_dict d : NoDup d.*1 → dict_of_pairs d = d.
Proof. intros Hd. by apply (foldl_dict_set_distinct d []). Qed.

Lemma dict_get_set d k v dflt : dict_get (dict_set d k v) k dflt = v.
Proof.
  unfold dict_get.
  induction d as [|[k' v'] d IH]; simpl.
  - by rewrite decide_True.
  - destruct (decide (k' = k)) as [->|Hne]; simpl.
    + by rewrite decide_True.
    + rewrite decide_False by done.
      destruct (list_find _ (dict_set d k v)) as [[i kv]|]; simpl in *; done.
Qed.

(** X5: an iterable of pairs passed as [givens] is turned into a dict
    first: the call is the call on that dict, whose keys are distinct and
    in which a later pair overrides an earlier pair of the same key; the
    items of a dict are left as they are. *)
Theorem is_same_graph_givens_pairs var1 var2 items w :
  is_same_graph var1 var2 (Some items) w
    = is_same_graph var1 var2 (Some (dict_of_pairs items)) w
  ∧ NoDup (dict_of_pairs items).*1
  ∧ (∀ k v dflt, dict_get (dict_of_pairs (items ++ [(k, v)])) k dflt = v)
  ∧ (NoDup items.*1 → dict_of_pairs items = items).
Proof.
  repeat split.
  - rewrite !is_same_graph_unfold. cbn [givens_dict].
    by rewrite (dict_of_pairs_dict (dict_of_pairs items))
      by apply dict_of_pairs_NoDup.
  - apply dict_of_pairs_NoDup.
  - intros k v dflt. unfold dict_of_pairs. rewrite foldl_app. simpl.
    apply dict_get_set.
  - apply dict_of_pairs_dict.
Qed.

(** X6: with no substitution ([givens] absent or empty) cross-validation
    always applies: when the merge-based check returns, the comparator is
    called once, with [in_xs] and [in_ys] set to [None], and the call
    returns exactly when the two answers are equal. *)
Theorem is_same_graph_no_givens var1 var2 givens w rval1 w1 :
  givens_dict givens = [] →
  is_same_graph_with_merge var1 var2 (Some []) w = (Ok rval1, w1) →
  calls (is_same_graph var1 var2 givens w).2
    = calls w1 ++ [CallEqualComputations [var1] [var2] None None]
  ∧ ((is_same_graph var1 var2 givens w).1 = Ok rval1
     ↔ structurally_equal w1 [var1] [var2] None None = rval1)
  ∧ ((is_same_graph var1 var2 givens w).1 = Raise AssertionError
     ↔ structurally_equal w1 [var1] [var2] None None ≠ rval1).
Proof.
  intros Hd Hmerge. rewrite is_same_graph_unfold, Hd, Hmerge.
  unfold cross_validate. cbn [fst snd record_call calls].
  split; [done |].
  destruct (decide (structurally_equal w1 [var1] [var2] None None = rval1))
    as [Heq|Hne].
  - rewrite bool_decide_eq_true_2 by done. split; split; try done.
  - rewrite bool_decide_eq_false_2 by done. split; split; try done.
Qed.

(** X7: [is_same_graph] fails in two ways only.  An exception of the
    merge-based check is raised as it is, in the store that check left,
    the comparator not being called; and when the merge-based check
    returns, the call returns its result or raises [AssertionError]. *)
Theorem is_same_graph_outcomes var1 var2 givens w :
  (∀ e w1,
     is_same_graph_with_merge var1 var2 (Some (givens_dict givens)) w
       = (Raise e, w1) →
     is_same_graph var1 var2 givens w = (Raise e, w1))
  ∧ (∀ rval1 w1,
       is_same_graph_with_merge var1 var2 (Some (givens_dict givens)) w
         = (Ok rval1, w1) →
       (is_same_graph var1 var2 givens w).1 = Ok rval1
       ∨ (is_same_graph var1 var2 givens w).1 = Raise AssertionError).
Proof.
  rewrite is_same_graph_unfold.
  split.
  - intros e w1 ->. done.
  - intros rval1 w1 ->.
    assert (Hcv : ∀ in_xs in_ys,
      (cross_validate var1 var2 in_xs in_ys rval1 w1).1 = Ok rval1
      ∨ (cross_validate var1 var2 in_xs in_ys rval1 w1).1 = Raise AssertionError).
    { intros in_xs in_ys. unfold cross_validate. cbn [fst].
      destruct (bool_decide _); auto. }
    destruct (givens_dict givens) as [|kv d]; [apply Hcv |].
    destruct (separate _ _ _ _) as [[[] in_xs] in_ys]; [apply Hcv | by left].
Qed.

Lemma cleanly_separable_sides all_vars s t :
  cleanly_separable all_vars (s, t) = true →
  s ≠ t
  ∧ in_var all_vars s 1 = negb (in_var all_vars s 2)
  ∧ in_var all_vars t 1 = negb (in_var all_vars t 2)
  ∧ in_var all_vars t 1 = negb (in_var all_vars s 1).
Proof.
  unfold cleanly_separable. cbn [fst snd].
  destruct (decide (s = t)) as [->|Hne].
  - destruct (in_var all_vars t 1), (in_var all_vars t 2); done.
  - destruct (in_var all_vars s 1), (in_var all_vars s 2),
      (in_var all_vars t 1), (in_var all_vars t 2); done.
Qed.

(** X8: with a non-empty dict, one pair that maps a Variable to itself,
    or one member of a pair that is in both graphs or in neither, turns
    cross-validation off: the call is the merge-based check alone. *)
Theorem is_same_graph_degenerate_pair var1 var2 givens w rval1 w1 s t :
  is_same_graph_with_merge var1 var2 (Some (givens_dict givens)) w = (Ok rval1, w1) →
  (s, t) ∈ givens_dict givens →
  s = t
  ∨ in_var (all_vars_of w1 var1 var2) s 1 = in_var (all_vars_of w1 var1 var2) s 2
  ∨ in_var (all_vars_of w1 var1 var2) t 1 = in_var (all_vars_of w1 var1 var2) t 2 →
  is_same_graph var1 var2 givens w = (Ok rval1, w1).
Proof.
  intros Hmerge Hin Hdeg. rewrite is_same_graph_unfold, Hmerge.
  destruct (givens_dict givens) as [|kv0 d] eqn:Hd;
    [by apply elem_of_nil in Hin |].
  rewrite separate_spec.
  assert (forallb (cleanly_separable (all_vars_of w1 var1 var2)) (kv0 :: d) = false)
    as ->; [|done].
  apply not_true_is_false. intros Hall. rewrite forallb_forall in Hall.
  apply list_elem_of_In, Hall, cleanly_separable_sides in Hin
    as (Hne & Hs & Ht & _).
  destruct Hdeg as [?|[He|He]]; [done | |].
  - rewrite He in Hs. by destruct (in_var _ s 2).
  - rewrite He in Ht. by destruct (in_var _ t 2).
Qed.

Lemma on_sides_separable all_vars kv :
  cleanly_separable all_vars kv = true →
  (in_var all_vars (on_side1 all_vars kv) 1 = true
   ∧ in_var all_vars (on_side1 all_vars kv) 2 = false)
  ∧ (in_var all_vars (on_side2 all_vars kv) 2 = true
     ∧ in_var all_vars (on_side2 all_vars kv) 1 = false).
Proof.
  destruct kv as [s t]. unfold cleanly_separable, on_side1, on_side2.
  cbn [fst snd].
  destruct (in_var all_vars s 1) eqn:Hs1, (in_var all_vars s 2) eqn:Hs2,
    (in_var all_vars t 1) eqn:Ht1, (in_var all_vars t 2) eqn:Ht2; done.
Qed.

(** X9: whenever [is_same_graph] calls the comparator with lists, the two
    lists have one element per item of the dict, every element of
    [in_xs] is in the graph of [var1] and not in the graph of [var2], and
    every element of [in_ys] is in the graph of [var2] and not in the
    graph of [var1]. *)
Theorem is_same_graph_aligned_lists var1 var2 givens w rval1 w1 xs ys in_xs in_ys :
  is_same_graph_with_merge var1 var2 (Some (givens_dict givens)) w = (Ok rval1, w1) →
  calls (is_same_graph var1 var2 givens w).2
    = calls w1 ++ [CallEqualComputations xs ys (Some in_xs) (Some in_ys)] →
  length in_xs = length (givens_dict givens)
  ∧ length in_ys = length (givens_dict givens)
  ∧ (∀ x, x ∈ in_xs →
          in_var (all_vars_of w1 var1 var2) x 1 = true
          ∧ in_var (all_vars_of w1 var1 var2) x 2 = false)
  ∧ (∀ y, y ∈ in_ys →
          in_var (all_vars_of w1 var1 var2) y 2 = true
          ∧ in_var (all_vars_of w1 var1 var2) y 1 = false).
Proof.
  intros Hmerge. rewrite is_same_graph_unfold, Hmerge.
  destruct (givens_dict givens) as [|kv0 d] eqn:Hd.
  { cbn [cross_validate snd record_call calls].
    intros Hcalls%app_inv_head. discriminate Hcalls. }
  rewrite separate_spec.
  destruct (forallb _ (kv0 :: d)) eqn:Hall.
  2: { cbn [snd]. by intros ?%calls_not_extended. }
  cbn [cross_validate snd record_call calls].
  intros Hcalls%app_inv_head. injection Hcalls as _ _ <- <-.
  rewrite forallb_forall in Hall.
  set (av := all_vars_of w1 var1 var2) in *.
  change (on_side1 av kv0 :: list_fmap _ _ (on_side1 av) d)
    with (on_side1 av <$> (kv0 :: d)).
  change (on_side2 av kv0 :: list_fmap _ _ (on_side2 av) d)
    with (on_side2 av <$> (kv0 :: d)).
  rewrite !length_fmap.
  split; [done |]. split; [done |].
  split; intros x (kv & -> & Hkv)%list_elem_of_fmap;
    apply list_elem_of_In, Hall, on_sides_separable in Hkv; tauto.
Qed.

(** X10: the loop that fills [in_xs] and [in_ys] does not depend on the
    orientation of the pairs: the dict with every pair reversed gives the
    same flag [ok] and the same lists. *)
Theorem separate_orientation all_vars items :
  ∀ in_xs in_ys,
    separate all_vars (prod_swap <$> items) in_xs in_ys
    = separate all_vars items in_xs in_ys.
Proof.
  induction items as [|[s t] items IH]; intros in_xs in_ys; [done |].
  rewrite fmap_cons. cbn [prod_swap fst snd separate].
  destruct (in_var all_vars s 1), (in_var all_vars s 2),
    (in_var all_vars t 1), (in_var all_vars t 2);
    cbn [andb negb]; try reflexivity; apply IH.
Qed.

(** ** Properties of the merge-based checker *)

Lemma fg_outputs_import_node w g n :
  fg_outputs (import_node w g n) = fg_outputs g.
Proof. unfold import_node. by destruct (decide _). Qed.

Lemma fg_outputs_foldl_import_node w ns :
  ∀ g, fg_outputs (foldl (import_node w) g ns) = fg_outputs g.
Proof.
  induction ns as [|n ns IH]; intros g; [done |].
  simpl. by rewrite IH, fg_outputs_import_node.
Qed.

Lemma fg_outputs_import_var w g v :
  fg_outputs (import_var w g v) = fg_outputs g.
Proof. unfold import_var. by rewrite fg_outputs_foldl_import_node. Qed.

Lemma fg_outputs_foldl_import_var w vs :
  ∀ g, fg_outputs (foldl (import_var w) g vs) = fg_outputs g.
Proof.
  induction vs as [|v vs IH]; intros g; [done |].
  simpl. by rewrite IH, fg_outputs_import_var.
Qed.

(** Without [clone] the constructor appends one object to the arena of
    graphs, whose designated outputs are the given ones. *)
Lemma FunctionGraph_new_no_clone ins outs w :
  ∃ g,
    FunctionGraph_new (Some ins) outs false w
      = (Ok (length (fgraphs w)), with_fgraphs w (fgraphs w ++ [g]))
    ∧ fg_outputs g = outs.
Proof.
  unfold FunctionGraph_new. eexists. split; [reflexivity |].
  change (fg_outputs (with_clients ?g ?c)) with (fg_outputs g).
  rewrite fg_outputs_foldl_import_var. apply list_fmap_id.
Qed.

(** The steps of [is_same_graph_with_merge], store by store. *)
Lemma is_same_graph_with_merge_unfold var1 var2 givens w :
  is_same_graph_with_merge var1 var2 givens w =
  let w1 := copy_objects w in
  let vars := [var1 + length (variables w); var2 + length (variables w)] in
  let fgraph := length (fgraphs w) in
  let w2 := (FunctionGraph_new (Some (graph_inputs w1 vars)) vars false w1).2 in
  match for_each (copied_givens w givens) (λ kv, replace fgraph kv.1 kv.2) w2 with
  | (Ok _, w3) =>
      let w4 := (MergeOptimizer_optimize fgraph w3).2 in
      (compare_replaced w4 (remapped_outputs w w4 givens), w4)
  | (Raise e, w3) => (Raise e, w3)
  end.
Proof.
  unfold is_same_graph_with_merge, remapped_outputs, copied_givens.
  unfold bind at 1. unfold deepcopy.
  unfold bind at 1. unfold read at 1.
  unfold bind at 1.
  destruct (FunctionGraph_new_no_clone
              (graph_inputs (copy_objects w)
                 [var1 + length (variables w); var2 + length (variables w)])
              [var1 + length (variables w); var2 + length (variables w)]
              (copy_objects w)) as (g & -> & _).
  cbn [snd]. change (fgraphs (copy_objects w)) with (fgraphs w).
  unfold bind at 1.
  destruct (for_each _ _ _) as [[[]|e] w3]; [|done].
  reflexivity.
Qed.

Lemma rewire_outputs_aliased f f' old new w :
  outputs_aliased f w → outputs_aliased f (rewire f' old new w).
Proof.
  intros (g & o & Hg & Ho). unfold rewire.
  destruct (fgraphs w !! f') as [g0|] eqn:Hg0; [|by exists g, o].
  destruct (decide (old = new)); [by exists g, o |].
  unfold outputs_aliased. cbn [fgraphs].
  destruct (decide (f' = f)) as [->|Hne].
  - rewrite list_lookup_insert_eq by (by eapply lookup_lt_Some).
    eexists _, (subst_var old new o). split; [done |].
    simpl. assert (g0 = g) as -> by congruence. by rewrite Ho.
  - rewrite list_lookup_insert_ne by done. by exists g, o.
Qed.

Lemma foldl_rewire_outputs_aliased f f' (oo : list (nat * nat)) :
  ∀ w, outputs_aliased f w →
       outputs_aliased f (foldl (λ w' p, rewire f' p.1 p.2 w') w oo).
Proof.
  induction oo as [|p oo IH]; intros w Hw; [done |].
  simpl. by apply IH, rewire_outputs_aliased.
Qed.

Lemma merge_step_outputs_aliased f f' w w' :
  merge_step f' w = Some w' → outputs_aliased f w → outputs_aliased f w'.
Proof.
  unfold merge_step. intros Hstep Hw.
  destruct (fgraphs w !! f') as [g|]; [|done]. simpl in Hstep.
  destruct (find_duplicate w g (apply_nodes g)) as [[n1 n2]|]; [|done].
  simpl in Hstep. injection Hstep as <-.
  by apply foldl_rewire_outputs_aliased.
Qed.

Lemma merge_loop_outputs_aliased f f' fuel :
  ∀ w, outputs_aliased f w → outputs_aliased f (merge_loop fuel f' w).
Proof.
  induction fuel as [|fuel IH]; intros w Hw; [done |].
  simpl. destruct (merge_step f' w) as [w'|] eqn:Hstep; [|done].
  eapply IH, merge_step_outputs_aliased; eauto.
Qed.

Lemma compare_replaced_same w o : compare_replaced w [o; o] = Ok true.
Proof.
  unfold compare_replaced.
  destruct (bool_decide (var_owner w o = None) && bool_decide (var_owner w o = None));
    by rewrite bool_decide_eq_true_2.
Qed.

Lemma dict_get_empty k dflt : dict_get [] k dflt = dflt.
Proof. reflexivity. Qed.

(** The merge-based check of a Variable against itself, with no
    substitution, answers [True]. *)
Lemma is_same_graph_with_merge_refl v w :
  (is_same_graph_with_merge v v (Some []) w).1 = Ok true.
Proof.
  rewrite is_same_graph_with_merge_unfold. cbn zeta.
  destruct (FunctionGraph_new_no_clone
              (graph_inputs (copy_objects w)
                 [v + length (variables w); v + length (variables w)])
              [v + length (variables w); v + length (variables w)]
              (copy_objects w)) as (g & -> & Hout).
  cbn [snd]. change (copied_givens w (Some [])) with (@nil (nat * nat)).
  cbn [for_each ret]. cbn [fst].
  unfold MergeOptimizer_optimize. cbn [snd].
  set (w2 := with_fgraphs _ _).
  assert (Hal : outputs_aliased (length (fgraphs w)) w2).
  { exists g, (v + length (variables w)). split; [|done].
    unfold w2. cbn [with_fgraphs fgraphs copy_objects].
    by rewrite lookup_app_r, Nat.sub_diag. }
  apply (merge_loop_outputs_aliased _ (length (fgraphs w))
           (default 0 (length ∘ apply_nodes <$> fgraphs w2 !! length (fgraphs w))))
    in Hal.
  destruct Hal as (g' & o & Hg' & Ho).
  unfold remapped_outputs. rewrite Hg'. cbn [fmap option_fmap option_map default].
  rewrite Ho. change (copied_givens w (Some [])) with (@nil (nat * nat)).
  change ((λ v0, dict_get [] v0 v0) <$> id [o; o]) with [o; o].
  apply compare_replaced_same.
Qed.

Lemma equal_vars_refl w common fuel v : equal_vars w common fuel v v = true.
Proof.
  destruct fuel; simpl;
    rewrite (bool_decide_eq_true_2 (v = v)) by done;
    by rewrite orb_true_r.
Qed.

Lemma structurally_equal_refl w v :
  structurally_equal w [v] [v] None None = true.
Proof.
  unfold structurally_equal. simpl. by rewrite equal_vars_refl.
Qed.

(** C2: for every Variable [v] and every store, [is_same_graph(v, v)]
    with no substitution ([givens] absent, or empty) returns [True]. *)
Theorem is_same_graph_reflexive v w :
  (is_same_graph v v None w).1 = Ok true
  ∧ (is_same_graph v v (Some []) w).1 = Ok true.
Proof.
  assert (H : ∀ givens, givens_dict givens = [] →
                        (is_same_graph v v givens w).1 = Ok true).
  { intros givens Hd. rewrite is_same_graph_unfold, Hd.
    pose proof (is_same_graph_with_merge_refl v w) as Hm.
    destruct (is_same_graph_with_merge v v (Some []) w) as [r w1].
    simpl in Hm. subst r. unfold cross_validate. cbn [fst].
    by rewrite structurally_equal_refl. }
  split; by apply H.
Qed.

(** C4: when [is_same_graph_with_merge] returns, the two outputs of its
    graph, remapped through the copied dict, are such that: if neither has
    an owner the result is [True] exactly when they are one Variable;
    otherwise it is [True] exactly when their owners are one node. *)
Theorem is_same_graph_with_merge_result var1 var2 givens w b w' :
  is_same_graph_with_merge var1 var2 givens w = (Ok b, w') →
  ∃ r1 r2,
    remapped_outputs w w' givens = [r1; r2]
    ∧ (var_owner w' r1 = None ∧ var_owner w' r2 = None →
       (b = true ↔ r1 = r2))
    ∧ (¬ (var_owner w' r1 = None ∧ var_owner w' r2 = None) →
       (b = true ↔ var_owner w' r1 = var_owner w' r2)).
Proof.
  rewrite is_same_graph_with_merge_unfold. cbn zeta.
  destruct (for_each _ _ _) as [[[]|e] w3]; [|done].
  generalize ((MergeOptimizer_optimize (length (fgraphs w)) w3).2).
  intros w4 Heq.
  assert (Hcmp : compare_replaced w4 (remapped_outputs w w4 givens) = Ok b)
    by congruence.
  assert (w4 = w') as -> by congruence. clear Heq. rename w' into w4.
  unfold compare_replaced in Hcmp.
  destruct (remapped_outputs w w4 givens) as [|r1 [|r2 [|r3 rs]]]; try done.
  exists r1, r2. split; [done |].
  destruct (decide (var_owner w4 r1 = None)) as [H1|H1],
           (decide (var_owner w4 r2 = None)) as [H2|H2].
  - rewrite !bool_decide_eq_true_2 in Hcmp by done. simpl in Hcmp.
    injection Hcmp as <-. split; [|tauto].
    intros _. apply bool_decide_eq_true.
  - rewrite (bool_decide_eq_false_2 (var_owner w4 r2 = None)) in Hcmp by done.
    rewrite andb_false_r in Hcmp. injection Hcmp as <-.
    split; [tauto |]. intros _. apply bool_decide_eq_true.
  - rewrite (bool_decide_eq_false_2 (var_owner w4 r1 = None)) in Hcmp by done.
    simpl in Hcmp. injection Hcmp as <-.
    split; [tauto |]. intros _. apply bool_decide_eq_true.
  - rewrite (bool_decide_eq_false_2 (var_owner w4 r1 = None)) in Hcmp by done.
    simpl in Hcmp. injection Hcmp as <-.
    split; [tauto |]. intros _. apply bool_decide_eq_true.
Qed.

(** ** Graphs made of a single Variable *)

Lemma var_owner_copy w v :
  var_owner (copy_objects w) (v + length (variables w))
  = (λ n, n + length (applies w)) <$> var_owner w v.
Proof.
  unfold var_owner, copy_objects. cbn [variables].
  rewrite lookup_app_r by lia.
  replace (v + length (variables w) - length (variables w)) with v by lia.
  rewrite list_lookup_fmap. by destruct (variables w !! v).
Qed.

Lemma var_owner_copy_below w v :
  v < length (variables w) → var_owner (copy_objects w) v = var_owner w v.
Proof.
  intros Hv. unfold var_owner, copy_objects. cbn [variables].
  by rewrite lookup_app_l.
Qed.

Lemma is_leaf_owner w v : is_leaf w v → var_owner w v = None.
Proof. intros (x & Hx & Hown). unfold var_owner. by rewrite Hx. Qed.

Lemma vars_between_leaf w ins v :
  var_owner w v = None → vars_between w ins [v] = [v].
Proof.
  intros Hv. unfold vars_between.
  assert (Hstep : reach_step w ins [v] = [v]).
  { unfold reach_step. cbn [mbind list_bind].
    assert (var_parents w ins v = []) as ->.
    { unfold var_parents. rewrite Hv. by destruct (decide _). }
    reflexivity. }
  assert (Hroots : remove_dups [v] = [v]).
  { cbn [remove_dups].
    destruct (decide_rel _ v []) as [Hin|_]; [by apply elem_of_nil in Hin | done]. }
  rewrite Hroots.
  induction (length (variables w)) as [|k IH]; [done |].
  simpl. by rewrite IH.
Qed.

Lemma import_var_leaf w g v :
  var_owner w v = None → apply_nodes (import_var w g v) = apply_nodes g.
Proof.
  intros Hv. unfold import_var. rewrite (vars_between_leaf w [] v Hv).
  cbn [omap list_omap]. by rewrite Hv.
Qed.

(** The graph built over two leaves tracks no node. *)
Lemma FunctionGraph_new_leaves ins a b w :
  var_owner w a = None → var_owner w b = None →
  ∃ g,
    FunctionGraph_new (Some ins) [a; b] false w
      = (Ok (length (fgraphs w)), with_fgraphs w (fgraphs w ++ [g]))
    ∧ fg_outputs g = [a; b]
    ∧ apply_nodes g = [].
Proof.
  intros Ha Hb. unfold FunctionGraph_new. eexists.
  split; [reflexivity |]. split.
  - change (fg_outputs (with_clients ?g ?c)) with (fg_outputs g).
    by rewrite fg_outputs_foldl_import_var.
  - change (apply_nodes (with_clients ?g ?c)) with (apply_nodes g).
    cbn [fmap list_fmap foldl]. by rewrite !import_var_leaf.
Qed.

Lemma is_same_graph_with_merge_leaves x y w :
  var_owner w x = None → var_owner w y = None →
  ∃ g,
    is_same_graph_with_merge x y (Some []) w
    = (Ok (bool_decide (x = y)),
       with_fgraphs (copy_objects w) (fgraphs w ++ [g])).
Proof.
  intros Hx Hy. rewrite is_same_graph_with_merge_unfold. cbn zeta.
  assert (Hx' : var_owner (copy_objects w) (x + length (variables w)) = None)
    by (by rewrite var_owner_copy, Hx).
  assert (Hy' : var_owner (copy_objects w) (y + length (variables w)) = None)
    by (by rewrite var_owner_copy, Hy).
  destruct (FunctionGraph_new_leaves
              (graph_inputs (copy_objects w)
                 [x + length (variables w); y + length (variables w)])
              _ _ (copy_objects w) Hx' Hy') as (g & -> & Hout & Hnodes).
  exists g. cbn [snd].
  change (copied_givens w (Some [])) with (@nil (nat * nat)).
  cbn [for_each ret].
  change (fgraphs (copy_objects w)) with (fgraphs w).
  set (w2 := with_fgraphs _ _).
  assert (Hg : fgraphs w2 !! length (fgraphs w) = Some g).
  { unfold w2. cbn [with_fgraphs fgraphs].
    by rewrite lookup_app_r, Nat.sub_diag. }
  unfold MergeOptimizer_optimize. cbn [snd]. rewrite Hg.
  cbn [fmap option_fmap option_map default compose]. rewrite Hnodes.
  cbn [length merge_loop id].
  unfold remapped_outputs. rewrite Hg.
  cbn [fmap option_fmap option_map default]. rewrite Hout.
  change (copied_givens w (Some [])) with (@nil (nat * nat)).
  change ((λ v, dict_get [] v v)
            <$> id [x + length (variables w); y + length (variables w)])
    with [x + length (variables w); y + length (variables w)].
  unfold compare_replaced.
  change (var_owner w2) with (var_owner (copy_objects w)).
  rewrite Hx', Hy'.
  rewrite !bool_decide_eq_true_2 by done. cbn [andb].
  do 2 f_equal. apply bool_decide_ext. lia.
Qed.

Lemma equal_vars_leaf w fuel x y :
  var_owner w x = None → equal_vars w [] fuel x y = bool_decide (x = y).
Proof.
  intros Hx.
  destruct fuel; cbn [equal_vars];
    rewrite (bool_decide_eq_false_2 ((x, y) ∈ [])) by apply not_elem_of_nil;
    rewrite ?Hx; cbn [orb]; by rewrite orb_false_r.
Qed.

(** X11: for two leaf Variables and no substitution both checks compare
    identities: [is_same_graph_with_merge] and [is_same_graph] return
    [True] when the two are one Variable and [False] when they are not, and
    the assertion of [is_same_graph] never fails. *)
Theorem is_same_graph_leaves x y w :
  is_leaf w x → is_leaf w y →
  (is_same_graph_with_merge x y None w).1 = Ok (bool_decide (x = y))
  ∧ (is_same_graph x y None w).1 = Ok (bool_decide (x = y))
  ∧ (is_same_graph x y (Some []) w).1 = Ok (bool_decide (x = y)).
Proof.
  intros Hlx Hly.
  pose proof (is_leaf_owner _ _ Hlx) as Hx.
  pose proof (is_leaf_owner _ _ Hly) as Hy.
  destruct (is_same_graph_with_merge_leaves x y w Hx Hy) as (g & Hmerge).
  assert (Horacle : ∀ givens, givens_dict givens = [] →
            (is_same_graph x y givens w).1 = Ok (bool_decide (x = y))).
  { intros givens Hd. rewrite is_same_graph_unfold, Hd, Hmerge.
    unfold cross_validate. cbn [fst].
    assert (structurally_equal
              (with_fgraphs (copy_objects w) (fgraphs w ++ [g])) [x] [y] None None
            = bool_decide (x = y)) as ->.
    { unfold structurally_equal. cbn [length zip_with forallb default fst snd].
      rewrite !bool_decide_eq_true_2 by done. cbn [andb].
      rewrite equal_vars_leaf; [by rewrite andb_true_r |].
      change (var_owner (with_fgraphs ?w0 ?l)) with (var_owner w0).
      rewrite var_owner_copy_below; [done |].
      destruct Hlx as (vx & Hvx & _). by eapply lookup_lt_Some. }
    by rewrite bool_decide_eq_true_2. }
  split; [|split].
  - change (is_same_graph_with_merge x y None w)
      with (is_same_graph_with_merge x y (Some []) w).
    by rewrite Hmerge.
  - by apply Horacle.
  - by apply Horacle.
Qed.

(** ** The two outputs of the working graph *)

Lemma rewire_two_outputs f f' old new w :
  two_outputs f w → two_outputs f (rewire f' old new w).
Proof.
  intros (g & a & b & Hg & Hab). unfold rewire.
  destruct (fgraphs w !! f') as [g0|] eqn:Hg0; [|by exists g, a, b].
  destruct (decide (old = new)) as [Heq|Hneq]; [by exists g, a, b |].
  unfold two_outputs. cbn [fgraphs].
  destruct (decide (f' = f)) as [->|Hne].
  - rewrite list_lookup_insert_eq by (by eapply lookup_lt_Some).
    eexists _, (subst_var old new a), (subst_var old new b). split; [done |].
    simpl. assert (g0 = g) as -> by congruence. by rewrite Hab.
  - rewrite list_lookup_insert_ne by done. by exists g, a, b.
Qed.

Lemma replace_two_outputs f f' old new w r w' :
  replace f' old new w = (r, w') → two_outputs f w → two_outputs f w'.
Proof.
  unfold replace.
  destruct (fgraphs w !! f') as [g0|] eqn:Hg0; [|by intros [= <- <-]].
  destruct (decide (is_Some (clients g0 !! old))) as [Hold|Hold];
    [|by intros [= <- <-]].
  intros [= <- <-] (g & a & b & Hg & Hab).
  apply rewire_two_outputs. unfold two_outputs. cbn [with_fgraphs fgraphs].
  destruct (decide (f' = f)) as [->|Hne].
  - rewrite list_lookup_insert_eq by (by eapply lookup_lt_Some).
    eexists _, a, b. split; [done |].
    rewrite fg_outputs_import_var. congruence.
  - rewrite list_lookup_insert_ne by done. by exists g, a, b.
Qed.

Lemma for_each_replace_two_outputs f f' (l : list (nat * nat)) :
  ∀ w r w',
    for_each l (λ kv, replace f' kv.1 kv.2) w = (r, w') →
    two_outputs f w → two_outputs f w'.
Proof.
  induction l as [|kv l IH]; intros w r w'.
  - by intros [= <- <-].
  - cbn [for_each]. unfold bind.
    destruct (replace f' kv.1 kv.2 w) as [[[]|e] w1] eqn:Hrep.
    + intros Hrest Hw. eapply IH; [done |]. by eapply replace_two_outputs.
    + intros [= <- <-] Hw. by eapply replace_two_outputs.
Qed.

Lemma merge_loop_two_outputs f f' fuel :
  ∀ w, two_outputs f w → two_outputs f (merge_loop fuel f' w).
Proof.
  induction fuel as [|fuel IH]; intros w Hw; [done |].
  simpl. destruct (merge_step f' w) as [w'|] eqn:Hstep; [|done].
  apply IH. unfold merge_step in Hstep.
  destruct (fgraphs w !! f') as [g|]; [|done]. simpl in Hstep.
  destruct (find_duplicate w g (apply_nodes g)) as [[n1 n2]|]; [|done].
  simpl in Hstep. injection Hstep as <-.
  generalize (zip (node_outputs w n2) (node_outputs w n1)). intros oo.
  revert w Hw. induction oo as [|p oo IHoo]; intros w Hw; [done |].
  simpl. by apply IHoo, rewire_two_outputs.
Qed.

Lemma for_each_replace_exn f (l : list (nat * nat)) :
  ∀ w e w',
    for_each l (λ kv, replace f kv.1 kv.2) w = (Raise e, w') →
    e = MalformedSubstitution.
Proof.
  induction l as [|kv l IH]; intros w e w'; [done |].
  cbn [for_each]. unfold bind.
  destruct (replace f kv.1 kv.2 w) as [[[]|e'] w1] eqn:Hrep.
  - apply IH.
  - intros [= <- <-]. unfold replace in Hrep.
    destruct (fgraphs w !! f); [|by injection Hrep as <-].
    destruct (decide _); [done | by injection Hrep as <-].
Qed.

(** X12: the unpacking [o1, o2 = ...] of [is_same_graph_with_merge] never
    fails, for the substitutions and the merge keep the two outputs of the
    graph: the call returns a boolean unless a substitution is rejected,
    and with no substitution it always returns one. *)
Theorem is_same_graph_with_merge_returns var1 var2 givens w :
  ((∃ b, (is_same_graph_with_merge var1 var2 givens w).1 = Ok b)
   ∨ (is_same_graph_with_merge var1 var2 givens w).1 = Raise MalformedSubstitution)
  ∧ (default [] givens = [] →
     ∃ b, (is_same_graph_with_merge var1 var2 givens w).1 = Ok b).
Proof.
  rewrite is_same_graph_with_merge_unfold. cbn zeta.
  destruct (FunctionGraph_new_no_clone
              (graph_inputs (copy_objects w)
                 [var1 + length (variables w); var2 + length (variables w)])
              [var1 + length (variables w); var2 + length (variables w)]
              (copy_objects w)) as (g & -> & Hout).
  cbn [snd]. change (fgraphs (copy_objects w)) with (fgraphs w).
  set (w2 := with_fgraphs _ _).
  assert (Hw2 : two_outputs (length (fgraphs w)) w2).
  { exists g, (var1 + length (variables w)), (var2 + length (variables w)).
    split; [|done]. unfold w2. cbn [with_fgraphs fgraphs].
    by rewrite lookup_app_r, Nat.sub_diag. }
  assert (Hret : ∀ w3, two_outputs (length (fgraphs w)) w3 →
    ∃ b, compare_replaced (MergeOptimizer_optimize (length (fgraphs w)) w3).2
           (remapped_outputs w (MergeOptimizer_optimize (length (fgraphs w)) w3).2
              givens) = Ok b).
  { intros w3 Hw3. unfold MergeOptimizer_optimize. cbn [snd].
    apply (merge_loop_two_outputs _ (length (fgraphs w))
             (default 0 (length ∘ apply_nodes <$> fgraphs w3 !! length (fgraphs w))))
      in Hw3 as (g' & a & b & Hg' & Hab).
    unfold remapped_outputs. rewrite Hg'.
    cbn [fmap option_fmap option_map default]. rewrite Hab.
    unfold compare_replaced, id. cbn [fmap list_fmap].
    destruct (_ && _); by eexists. }
  split.
  - destruct (for_each _ _ w2) as [[[]|e] w3] eqn:Hloop.
    + left. cbn [fst]. apply Hret.
      by eapply for_each_replace_two_outputs.
    + right. cbn [fst]. f_equal. by eapply for_each_replace_exn.
  - intros Hempty. unfold copied_givens. rewrite Hempty.
    cbn [fmap list_fmap for_each ret fst]. by apply Hret.
Qed.

(** ** The checker works on private copies *)

Section Frame.

Context (bv bn bf f : nat) (Hf : bf ≤ f).

Lemma same_below_refl w : same_below bv bn bf w w.
Proof. done. Qed.

Lemma same_below_trans w1 w2 w3 :
  same_below bv bn bf w1 w2 → same_below bv bn bf w2 w3 →
  same_below bv bn bf w1 w3.
Proof.
  intros (H1 & H2 & H3) (H4 & H5 & H6).
  repeat split; congruence.
Qed.

Lemma var_parents_ge w ins v x :
  closed_above bv bn w → bv ≤ v → x ∈ var_parents w ins v → bv ≤ x.
Proof.
  intros [Hown Hnode] Hv. unfold var_parents.
  destruct (decide (v ∈ ins)) as [Hin|Hnin]; [by intros ?%elem_of_nil |].
  destruct (var_owner w v) as [n|] eqn:Hn; [|by intros ?%elem_of_nil].
  unfold node_inputs.
  destruct (applies w !! n) as [a|] eqn:Ha; [|by intros ?%elem_of_nil].
  simpl. apply (Hnode n a); eauto.
Qed.

Lemma reach_step_ge w ins seen :
  closed_above bv bn w →
  (∀ x, x ∈ seen → bv ≤ x) →
  ∀ x, x ∈ reach_step w ins seen → bv ≤ x.
Proof.
  intros Hcl Hseen x. unfold reach_step.
  rewrite elem_of_app, list_elem_of_difference, elem_of_remove_dups,
    list_elem_of_bind.
  intros [Hx | [(v & Hxv & Hv) _]]; [by apply Hseen |].
  exact (var_parents_ge w ins v x Hcl (Hseen v Hv) Hxv).
Qed.

Lemma vars_between_ge w ins outs :
  closed_above bv bn w →
  (∀ x, x ∈ outs → bv ≤ x) →
  ∀ x, x ∈ vars_between w ins outs → bv ≤ x.
Proof.
  intros Hcl Houts. unfold vars_between.
  induction (length (variables w)) as [|k IH]; simpl.
  - intros x Hx. by apply Houts, elem_of_remove_dups.
  - by apply reach_step_ge.
Qed.

Lemma apply_nodes_import_node w g n n' :
  n' ∈ apply_nodes (import_node w g n) → n' ∈ apply_nodes g ∨ n' = n.
Proof.
  unfold import_node. destruct (decide _) as [Hin|Hnin]; [by left |].
  simpl. rewrite elem_of_app, list_elem_of_singleton. tauto.
Qed.

Lemma apply_nodes_foldl_import_node w ns :
  ∀ g n', n' ∈ apply_nodes (foldl (import_node w) g ns) →
          n' ∈ apply_nodes g ∨ n' ∈ ns.
Proof.
  induction ns as [|n ns IH]; intros g n' Hn'; [by left |].
  simpl in Hn'. apply IH in Hn' as [Hn'|Hn'].
  - apply apply_nodes_import_node in Hn' as [?| ->]; [by left |].
    right. by apply list_elem_of_here.
  - right. by apply list_elem_of_further.
Qed.

Lemma apply_nodes_import_var w g v :
  closed_above bv bn w → bv ≤ v →
  (∀ n, n ∈ apply_nodes g → bn ≤ n) →
  ∀ n, n ∈ apply_nodes (import_var w g v) → bn ≤ n.
Proof.
  intros Hcl Hv Hg n Hn. unfold import_var in Hn.
  apply apply_nodes_foldl_import_node in Hn as [Hn|Hn]; [by apply Hg |].
  apply elem_of_remove_dups, list_elem_of_omap in Hn as (x & Hx & Hown).
  destruct Hcl as [Hcl1 Hcl2]. apply (Hcl1 x); [|done].
  apply (vars_between_ge w [] [v]); [done | | done].
  by intros ? ->%list_elem_of_singleton.
Qed.

Lemma apply_nodes_foldl_import_var w vs :
  closed_above bv bn w → (∀ v, v ∈ vs → bv ≤ v) →
  ∀ g, (∀ n, n ∈ apply_nodes g → bn ≤ n) →
       ∀ n, n ∈ apply_nodes (foldl (import_var w) g vs) → bn ≤ n.
Proof.
  intros Hcl. induction vs as [|v vs IH]; intros Hvs g Hg; [done |].
  simpl. apply IH.
  - intros x Hx. by apply Hvs, list_elem_of_further.
  - apply apply_nodes_import_var; [done | | done].
    apply Hvs, list_elem_of_here.
Qed.

(** The inputs of the altered nodes keep a property that the
    substitution keeps. *)
Lemma foldl_alter_lookup (P : Apply → Prop) (F : Apply → Apply) ns :
  (∀ a, P a → P (F a)) →
  ∀ (l : list Apply) (n : nat) a',
    foldl (λ l n, alter F n l) l ns !! n = Some a' →
    ∃ a, l !! n = Some a ∧ (P a → P a').
Proof.
  intros HF. induction ns as [|m ns IH]; intros l n a' Hl.
  - by exists a'.
  - simpl in Hl. apply IH in Hl as (a1 & Ha1 & HP).
    destruct (decide (m = n)) as [->|Hne].
    + rewrite list_lookup_alter_eq in Ha1.
      destruct (l !! n) as [a|]; [|done]. injection Ha1 as <-.
      exists a. split; [done |]. intros Ha. by apply HP, HF.
    + rewrite list_lookup_alter_ne in Ha1 by done. by exists a1.
Qed.

Lemma take_foldl_alter (F : Apply → Apply) ns :
  (∀ n, n ∈ ns → bn ≤ n) →
  ∀ l : list Apply,
    take bn (foldl (λ l n, alter F n l) l ns) = take bn l.
Proof.
  induction ns as [|m ns IH]; intros Hns l; [done |].
  simpl. rewrite IH.
  - apply take_alter_ge, Hns, list_elem_of_here.
  - intros n Hn. by apply Hns, list_elem_of_further.
Qed.

Lemma rewire_frame old new w :
  private_graph bv bn f w → bv ≤ new →
  private_graph bv bn f (rewire f old new w)
  ∧ same_below bv bn bf w (rewire f old new w).
Proof.
  intros [Hcl Htr] Hnew. unfold rewire.
  destruct (fgraphs w !! f) as [g|] eqn:Hg; [|done].
  destruct (decide (old = new)) as [Heq|Hneq]; [done |].
  split; [split |].
  - destruct Hcl as [Hcl1 Hcl2]. split; [exact Hcl1 |].
    intros n a' Hn Ha'. cbn [applies] in Ha'.
    apply (foldl_alter_lookup
             (λ a, (∀ x, x ∈ inputs a → bv ≤ x) ∧ (∀ x, x ∈ outputs a → bv ≤ x))
             (subst_inputs old new)) in Ha' as (a & Ha & HP).
    + apply HP, (Hcl2 n a); done.
    + intros a0 [Hin Hout]. split; [|done].
      intros x. simpl. rewrite list_elem_of_fmap.
      intros (y & -> & Hy). unfold subst_var.
      destruct (decide _) as [Heq'|Hneq']; [done | by apply Hin].
  - intros g' n Hg' Hn. cbn [fgraphs] in Hg'.
    rewrite list_lookup_insert_eq in Hg' by (by eapply lookup_lt_Some).
    injection Hg' as <-. simpl in Hn. by apply (Htr g n).
  - repeat split; cbn [applies fgraphs].
    + apply take_foldl_alter. intros n Hn. by apply (Htr g n).
    + by apply take_insert_ge.
Qed.

Lemma foldl_rewire_frame (oo : list (nat * nat)) :
  (∀ p, p ∈ oo → bv ≤ p.2) →
  ∀ w, private_graph bv bn f w →
       private_graph bv bn f (foldl (λ w' p, rewire f p.1 p.2 w') w oo)
       ∧ same_below bv bn bf w (foldl (λ w' p, rewire f p.1 p.2 w') w oo).
Proof.
  induction oo as [|p oo IH]; intros Hoo w Hw; [done |].
  simpl.
  destruct (rewire_frame p.1 p.2 w Hw) as [Hw1 Hs1].
  { apply Hoo, list_elem_of_here. }
  destruct (IH (λ q Hq, Hoo q (list_elem_of_further _ _ _ Hq)) _ Hw1)
    as [Hw2 Hs2].
  split; [done | by eapply same_below_trans].
Qed.

Lemma replace_frame old new w r w' :
  private_graph bv bn f w → bv ≤ new →
  replace f old new w = (r, w') →
  private_graph bv bn f w' ∧ same_below bv bn bf w w'.
Proof.
  intros [Hcl Htr] Hnew. unfold replace.
  destruct (fgraphs w !! f) as [g|] eqn:Hg; [|by intros [= <- <-]].
  destruct (decide (is_Some (clients g !! old))) as [Hold|Hold];
    [|by intros [= <- <-]].
  intros [= <- <-].
  set (w1 := with_fgraphs w (<[f:=import_var w g new]> (fgraphs w))).
  assert (Hw1 : private_graph bv bn f w1).
  { split; [exact Hcl |].
    intros g' n Hg' Hn. unfold w1 in Hg'. cbn [with_fgraphs fgraphs] in Hg'.
    rewrite list_lookup_insert_eq in Hg' by (by eapply lookup_lt_Some).
    injection Hg' as <-.
    eapply apply_nodes_import_var; eauto. }
  assert (Hs1 : same_below bv bn bf w w1).
  { repeat split. unfold w1. cbn [with_fgraphs fgraphs].
    by apply take_insert_ge. }
  destruct (rewire_frame old new w1 Hw1 Hnew) as [Hw2 Hs2].
  split; [done | by eapply same_below_trans].
Qed.

Lemma for_each_replace_frame (l : list (nat * nat)) :
  (∀ kv, kv ∈ l → bv ≤ kv.2) →
  ∀ w r w', private_graph bv bn f w →
    for_each l (λ kv, replace f kv.1 kv.2) w = (r, w') →
    private_graph bv bn f w' ∧ same_below bv bn bf w w'.
Proof.
  induction l as [|kv l IH]; intros Hl w r w' Hw.
  - intros [= <- <-]. done.
  - cbn [for_each]. unfold bind.
    destruct (replace f kv.1 kv.2 w) as [r1 w1] eqn:Hrep.
    apply replace_frame in Hrep as [Hw1 Hs1];
      [| done | apply Hl, list_elem_of_here].
    destruct r1 as [[]|e].
    + intros Hrest.
      apply IH in Hrest as [Hw2 Hs2]; [| | done].
      * split; [done | by eapply same_below_trans].
      * intros q Hq. by apply Hl, list_elem_of_further.
    + by intros [= <- <-].
Qed.

Lemma find_duplicate_elem w g ns n1 n2 :
  find_duplicate w g ns = Some (n1, n2) → n1 ∈ ns.
Proof.
  induction ns as [|n ns IH]; [done |].
  simpl. destruct (list_find _ ns) as [[i m]|].
  - intros [= <- <-]. apply list_elem_of_here.
  - intros Hrec. by apply list_elem_of_further, IH.
Qed.

Lemma merge_step_frame w w' :
  private_graph bv bn f w → merge_step f w = Some w' →
  private_graph bv bn f w' ∧ same_below bv bn bf w w'.
Proof.
  intros Hw. unfold merge_step.
  destruct (fgraphs w !! f) as [g|] eqn:Hg; [|done]. simpl.
  destruct (find_duplicate w g (apply_nodes g)) as [[n1 n2]|] eqn:Hdup;
    [|done].
  simpl. intros [= <-].
  apply foldl_rewire_frame; [|done].
  intros [o2 o1] Hp. apply elem_of_zip_r in Hp. simpl.
  destruct Hw as [[Hcl1 Hcl2] Htr].
  apply find_duplicate_elem in Hdup. apply (Htr g) in Hdup; [|done].
  unfold node_outputs in Hp.
  destruct (applies w !! n1) as [a|] eqn:Ha; [|by apply elem_of_nil in Hp].
  by apply (Hcl2 n1 a).
Qed.

Lemma merge_loop_frame fuel :
  ∀ w, private_graph bv bn f w →
       private_graph bv bn f (merge_loop fuel f w)
       ∧ same_below bv bn bf w (merge_loop fuel f w).
Proof.
  induction fuel as [|fuel IH]; intros w Hw; [done |].
  simpl. destruct (merge_step f w) as [w1|] eqn:Hstep; [|done].
  apply merge_step_frame in Hstep as [Hw1 Hs1]; [|done].
  destruct (IH w1 Hw1) as [Hw2 Hs2].
  split; [done | by eapply same_below_trans].
Qed.

Lemma FunctionGraph_new_private ins outs w :
  closed_above bv bn w → (∀ x, x ∈ outs → bv ≤ x) →
  ∃ g,
    FunctionGraph_new (Some ins) outs false w
      = (Ok (length (fgraphs w)), with_fgraphs w (fgraphs w ++ [g]))
    ∧ ∀ n, n ∈ apply_nodes g → bn ≤ n.
Proof.
  intros Hcl Houts. unfold FunctionGraph_new.
  eexists. split; [reflexivity |].
  change (apply_nodes (with_clients ?g ?c)) with (apply_nodes g).
  apply apply_nodes_foldl_import_var; [done | |].
  - intros v. rewrite list_fmap_id. apply Houts.
  - intros m Hm. by apply elem_of_nil in Hm.
Qed.

End Frame.

Lemma copy_objects_closed w :
  closed_above (length (variables w)) (length (applies w)) (copy_objects w).
Proof.
  split.
  - intros v n Hv. unfold var_owner, copy_objects. cbn [variables].
    rewrite lookup_app_r by done. rewrite list_lookup_fmap.
    destruct (variables w !! (v - length (variables w))) as [x|]; [|done].
    simpl. destruct (owner x); [|done]. simpl. intros [= <-]. lia.
  - intros n a Hn. unfold copy_objects. cbn [applies].
    rewrite lookup_app_r by done. rewrite list_lookup_fmap.
    destruct (applies w !! (n - length (applies w))) as [a0|]; [|done].
    simpl. intros [= <-]. simpl.
    split; intros x (y & -> & _)%list_elem_of_fmap; lia.
Qed.

Lemma same_below_preserved w w' :
  same_below (length (variables w)) (length (applies w)) (length (fgraphs w)) w w' →
  preserved w w'.
Proof.
  intros (Hv & Ha & Hg). rewrite firstn_all in Hv, Ha, Hg.
  repeat split.
  - exists (drop (length (variables w)) (variables w')).
    etransitivity; [symmetry; apply (take_drop (length (variables w))) |].
    by rewrite Hv.
  - exists (drop (length (applies w)) (applies w')).
    etransitivity; [symmetry; apply (take_drop (length (applies w))) |].
    by rewrite Ha.
  - exists (drop (length (fgraphs w)) (fgraphs w')).
    etransitivity; [symmetry; apply (take_drop (length (fgraphs w))) |].
    by rewrite Hg.
Qed.

(** The graph that the merge-based check builds tracks copies only, and
    the check changes nothing below the copies. *)
Lemma is_same_graph_with_merge_preserved var1 var2 givens w :
  preserved w (is_same_graph_with_merge var1 var2 givens w).2.
Proof.
  apply same_below_preserved.
  rewrite is_same_graph_with_merge_unfold. cbn zeta.
  set (bv := length (variables w)). set (bn := length (applies w)).
  set (bf := length (fgraphs w)).
  pose proof (copy_objects_closed w) as Hcl. fold bv bn in Hcl.
  assert (Hvars : ∀ x, x ∈ [var1 + bv; var2 + bv] → bv ≤ x).
  { intros x [->|[->|[]%elem_of_nil]%elem_of_cons]%elem_of_cons; lia. }
  destruct (FunctionGraph_new_private bv bn
              (graph_inputs (copy_objects w) [var1 + bv; var2 + bv])
              [var1 + bv; var2 + bv] (copy_objects w) Hcl Hvars)
    as (g & -> & Hg).
  cbn [snd]. set (w2 := with_fgraphs _ _).
  assert (Hw2 : private_graph bv bn bf w2 ∧ same_below bv bn bf w w2).
  { split; [split |].
    - exact Hcl.
    - intros g' n Hg'. unfold w2 in Hg'.
      cbn [with_fgraphs fgraphs copy_objects] in Hg'.
      rewrite lookup_app_r in Hg' by done.
      fold bf in Hg'. rewrite Nat.sub_diag in Hg'. injection Hg' as <-.
      apply Hg.
    - unfold w2, bv, bn, bf.
      repeat split; cbn [with_fgraphs variables applies fgraphs copy_objects];
        by rewrite take_app_length, firstn_all. }
  destruct Hw2 as [Hw2 Hs2].
  destruct (for_each _ _ w2) as [r w3] eqn:Hloop.
  apply (for_each_replace_frame bv bn bf bf) in Hloop as [Hw3 Hs3];
    [| done | | done].
  2: { intros kv. unfold copied_givens. rewrite list_elem_of_fmap.
       intros ([k v] & -> & _). simpl. fold bv. lia. }
  destruct r as [[]|e]; cbn [snd].
  - unfold MergeOptimizer_optimize. cbn [snd].
    destruct (merge_loop_frame bv bn bf bf (le_n _)
                (default 0 (length ∘ apply_nodes <$> fgraphs w3 !! bf)) w3 Hw3)
      as [_ Hs4].
    eauto using same_below_trans.
  - eauto using same_below_trans.
Qed.

(** C3: whatever a call of [is_same_graph] returns or raises, every
    Variable, every [Apply] node and every [FunctionGraph] of the store
    the call started in is in the final store with the fields it had,
    inputs and client index included: the call writes to objects that it
    created itself only. *)
Theorem is_same_graph_preserves_caller_graph var1 var2 givens w :
  preserved w (is_same_graph var1 var2 givens w).2.
Proof.
  rewrite is_same_graph_unfold.
  pose proof (is_same_graph_with_merge_preserved var1 var2
                (Some (givens_dict givens)) w) as Hm.
  destruct (is_same_graph_with_merge _ _ _ w) as [[rval1|e] w1]; [|done].
  cbn [snd] in Hm.
  destruct (givens_dict givens) as [|kv d]; [done |].
  by destruct (separate _ _ _ _) as [[[] in_xs] in_ys].
Qed.

(** ** Properties of the optimization driver *)

Section OptimizationDriverProperties.

Context {Optimizer Kwargs : Type}.
Variable optdb_query : list string → Kwargs → M Optimizer.
Variable optimize : Optimizer → nat → M unit.
Variable truthy : Optimizer → bool.

Lemma optimize_graph_on_fgraph fgraph include custom_opt clone kwargs w :
  optimize_graph optdb_query optimize truthy
    (ArgFunctionGraph fgraph) include custom_opt clone kwargs w =
  match run_passes optdb_query optimize truthy include custom_opt kwargs fgraph w with
  | (Ok _, w') => (Ok (ArgFunctionGraph fgraph), w')
  | (Raise e, w') => (Raise e, w')
  end.
Proof.
  unfold optimize_graph, run_passes, bind, ret.
  destruct (optdb_query _ kwargs w) as [[opt|e] w1]; [|done].
  destruct (optimize opt fgraph w1) as [[[]|e] w2]; [|done].
  destruct custom_opt as [c|]; [|done].
  destruct (truthy c); [|done].
  by destruct (optimize c fgraph w2) as [[[]|e] w3].
Qed.

Lemma optimize_graph_on_variable v include custom_opt clone kwargs w :
  optimize_graph optdb_query optimize truthy
    (ArgVariable v) include custom_opt clone kwargs w =
  match FunctionGraph_new None [v] clone w with
  | (Ok fgraph, w0) =>
      match run_passes optdb_query optimize truthy include custom_opt kwargs fgraph w0 with
      | (Ok _, w') =>
          (match default [] (fg_outputs <$> fgraphs w' !! fgraph) !! 0 with
           | Some out => Ok (ArgVariable out)
           | None => Raise IndexError
           end, w')
      | (Raise e, w') => (Raise e, w')
      end
  | (Raise e, w0) => (Raise e, w0)
  end.
Proof.
  unfold optimize_graph, run_passes, bind, ret, read, raise.
  destruct (FunctionGraph_new None [v] clone w) as [[fgraph|e] w0]; [|done].
  destruct (optdb_query _ kwargs w0) as [[opt|e] w1]; [|done].
  destruct (optimize opt fgraph w1) as [[[]|e] w2]; [|done].
  destruct custom_opt as [c|].
  - destruct (truthy c).
    + destruct (optimize c fgraph w2) as [[[]|e] w3]; [|done].
      by destruct (_ !! 0).
    + by destruct (_ !! 0).
  - by destruct (_ !! 0).
Qed.

(** C10: given a [FunctionGraph], [optimize_graph] runs the passes over
    that object, returns that same object when it returns, and does the
    same whatever [clone] is; given a Variable, it wraps it in a new
    graph (a new handle) whose one output is the Variable, or its copy
    when [clone] is set (only then is anything copied), and when it
    returns it returns the first output of that graph. *)
Theorem optimize_graph_clone fgraph v include custom_opt clone kwargs w :
  (optimize_graph optdb_query optimize truthy
     (ArgFunctionGraph fgraph) include custom_opt clone kwargs w
   = optimize_graph optdb_query optimize truthy
       (ArgFunctionGraph fgraph) include custom_opt (negb clone) kwargs w
   ∧ (optimize_graph optdb_query optimize truthy
        (ArgFunctionGraph fgraph) include custom_opt clone kwargs w).2
     = (run_passes optdb_query optimize truthy include custom_opt kwargs fgraph w).2
   ∧ ∀ r, (optimize_graph optdb_query optimize truthy
             (ArgFunctionGraph fgraph) include custom_opt clone kwargs w).1 = Ok r →
          r = ArgFunctionGraph fgraph)
  ∧ (∃ g,
       FunctionGraph_new None [v] clone w
       = (Ok (length (fgraphs w)),
          with_fgraphs (if clone then copy_objects w else w) (fgraphs w ++ [g]))
       ∧ fg_outputs g = [if clone then v + length (variables w) else v])
  ∧ (∀ r w',
       optimize_graph optdb_query optimize truthy
         (ArgVariable v) include custom_opt clone kwargs w = (Ok r, w') →
       ∃ out, r = ArgVariable out
              ∧ default [] (fg_outputs <$> fgraphs w' !! length (fgraphs w)) !! 0
                = Some out).
Proof.
  split; [|split].
  - rewrite !optimize_graph_on_fgraph.
    destruct (run_passes _ _ _ _ _ _ _ w) as [[[]|e] w1]; repeat split; try done.
    by intros r [= <-].
  - unfold FunctionGraph_new.
    destruct clone; (eexists; split; [reflexivity |]);
      change (fg_outputs (with_clients ?g ?c)) with (fg_outputs g);
      by rewrite fg_outputs_foldl_import_var.
  - intros r w'. rewrite optimize_graph_on_variable.
    assert (Hnew : (FunctionGraph_new None [v] clone w).1 = Ok (length (fgraphs w))).
    { unfold FunctionGraph_new. by destruct clone. }
    destruct (FunctionGraph_new None [v] clone w) as [rf w0].
    simpl in Hnew. subst rf.
    destruct (run_passes _ _ _ _ _ _ _ w0) as [[[]|e] w1]; [|done].
    destruct (_ !! 0) as [out|] eqn:Hout; [|done].
    intros [= <- <-]. by exists out.
Qed.

End OptimizationDriverProperties.

(** ** The documented examples, and the theorems at concrete graphs *)


(** In that call the substitution and the merge are at work on the copies:
    the copy of [x + 1] (node 2) reads the copy of [y] (handle 6) in the
    end, while [x + 1] itself (node 0) reads [x] as before. *)
Example is_same_graph_rewires_copies :
  applies (is_same_graph 3 4 (Some [(0, 1)]) world_xy).2 !! 2
    = Some (mkApply "add" [6; 7] [8])
  ∧ applies (is_same_graph 3 4 (Some [(0, 1)]) world_xy).2 !! 0
    = Some (mkApply "add" [0; 2] [3]).
Proof. split; vm_compute; reflexivity. Qed.

Lemma is_same_graph_cross_validation_witness :
  (is_same_graph 1 2 None world_split).1 = Raise AssertionError.
Proof.
  apply (proj1 (is_same_graph_cross_validation 1 2 None world_split)
           true (is_same_graph_with_merge 1 2 (Some []) world_split).2
           [1] [2] None None).
  - vm_compute. reflexivity.
  - vm_compute. reflexivity.
  - intros H. vm_compute in H. discriminate H.
Defined.

Lemma is_same_graph_with_merge_result_witness :
  ∃ r1 r2,
    remapped_outputs world_xy
      (is_same_graph_with_merge 3 4 (Some [(0, 1)]) world_xy).2 (Some [(0, 1)])
    = [r1; r2]
    ∧ (var_owner (is_same_graph_with_merge 3 4 (Some [(0, 1)]) world_xy).2 r1 = None
       ∧ var_owner (is_same_graph_with_merge 3 4 (Some [(0, 1)]) world_xy).2 r2 = None →
       (true = true ↔ r1 = r2))
    ∧ (¬ (var_owner (is_same_graph_with_merge 3 4 (Some [(0, 1)]) world_xy).2 r1 = None
          ∧ var_owner (is_same_graph_with_merge 3 4 (Some [(0, 1)]) world_xy).2 r2 = None) →
       (true = true ↔
        var_owner (is_same_graph_with_merge 3 4 (Some [(0, 1)]) world_xy).2 r1
        = var_owner (is_same_graph_with_merge 3 4 (Some [(0, 1)]) world_xy).2 r2)).
Proof.
  apply (is_same_graph_with_merge_result 3 4 (Some [(0, 1)]) world_xy true).
  vm_compute. reflexivity.
Defined.

Lemma is_same_graph_all_or_nothing_witness :
  calls (is_same_graph 3 4 (Some [(0, 1)]) world_xy).2
  = [CallEqualComputations [3] [4] (Some [0]) (Some [1])]
  ∧ is_same_graph 3 4 (Some [(0, 1); (2, 2)]) world_xy
    = is_same_graph_with_merge 3 4 (Some [(0, 1); (2, 2)]) world_xy.
Proof.
  split.
  - destruct (is_same_graph_all_or_nothing 3 4 (Some [(0, 1)]) world_xy true
                (is_same_graph_with_merge 3 4 (Some [(0, 1)]) world_xy).2)
      as [_ Hall].
    + discriminate.
    + vm_compute. reflexivity.
    + destruct Hall as [_ Hcalls].
      * intros kv ->%list_elem_of_singleton. vm_compute. reflexivity.
      * rewrite Hcalls. vm_compute. reflexivity.
  - destruct (is_same_graph_all_or_nothing 3 4 (Some [(0, 1); (2, 2)]) world_xy true
                (is_same_graph_with_merge 3 4 (Some [(0, 1); (2, 2)]) world_xy).2)
      as [Hone _].
    + discriminate.
    + vm_compute. reflexivity.
    + rewrite Hone.
      * vm_compute. reflexivity.
      * exists (2, 2). split; [| vm_compute; reflexivity].
        apply list_elem_of_further, list_elem_of_here.
Defined.

Lemma world_chain_linear : linear_chain world_chain 0 [0; 1; 2].
Proof.
  cbn [linear_chain].
  exists 1, 0. repeat split; try (vm_compute; reflexivity).
  exists 2, 0. repeat split; try (vm_compute; reflexivity).
  exists 3, 0. repeat split; vm_compute; reflexivity.
Defined.

Lemma get_clients_at_depth_linear_chain_witness :
  (∃ m, [0; 1; 2] !! (1 + Z.to_nat 1) = Some m
        ∧ get_clients_at_depth world_chain 0 1 1 = ([Some m], None))
  ∧ get_clients_at_depth world_chain 0 1 2 = ([], None).
Proof.
  split.
  - apply (get_clients_at_depth_linear_chain world_chain 0 [0; 1; 2] 1 1 1
             world_chain_linear); [reflexivity | lia | simpl; lia].
  - apply (get_clients_at_depth_linear_chain world_chain 0 [0; 1; 2] 1 1 2
             world_chain_linear); [reflexivity | lia | simpl; lia].
Defined.

Lemma get_clients_at_depth_nonpositive_witness :
  get_clients_at_depth world_chain 0 1 (-2) = ([Some 1], None).
Proof.
  apply (get_clients_at_depth_nonpositive world_chain 0 1 (-2)). lia.
Defined.

(** A negative depth is not rejected: the traversal from the first node
    of the chain at depth [-1] yields that node and raises nothing. *)
Lemma get_clients_at_depth_negative_counterexample :
  get_clients_at_depth world_chain 0 0 (-1) = ([Some 0], None)
  ∧ ¬ (∀ w fgraph node depth, (depth < 0)%Z →
         ∃ e, get_clients_at_depth w fgraph node depth = ([], Some e)).
Proof.
  split; [vm_compute; reflexivity |].
  intros H. destruct (H world_chain 0 0 (-1)%Z) as [e He]; [lia |].
  vm_compute in He. discriminate He.
Qed.

Lemma get_clients_at_depth_negative_witness :
  get_clients_at_depth world_chain 0 0 (-1) = get_clients_at_depth world_chain 0 0 0
  ∧ (get_clients_at_depth world_chain 0 0 (-1)).2 = None.
Proof.
  apply (get_clients_at_depth_negative world_chain 0 0 (-1)). lia.
Defined.

(** The driver with the merge pass as its only registered pass, on the
    end of the chain, cloned. *)
Lemma optimize_graph_clone_witness :
  ∃ out,
    ArgVariable 7 = ArgVariable out
    ∧ default []
        (fg_outputs <$>
         fgraphs (optimize_graph (λ _ _, ret tt) (λ _ : unit, MergeOptimizer_optimize)
                    (λ _, true) (ArgVariable 3) None None true tt world_chain).2
         !! length (fgraphs world_chain)) !! 0
      = Some out.
Proof.
  apply (optimize_graph_clone (λ _ _, ret tt) (λ _ : unit, MergeOptimizer_optimize)
           (λ _, true) 0 3 None None true tt world_chain).
  vm_compute. reflexivity.
Defined.

(** ** The further properties at concrete graphs *)

Lemma get_clients_at_depth_sound_witness :
  ∃ m v, downstream world_diamond 0 (Z.to_nat 1) 0 m
         ∧ v ∈ node_outputs world_diamond m
         ∧ Some 1 = var_owner world_diamond v.
Proof.
  apply (get_clients_at_depth_sound world_diamond 0 0 1 (Some 1)).
  assert (H : get_clients_at_depth world_diamond 0 0 1 = ([Some 1; Some 1], None))
    by (vm_compute; reflexivity).
  rewrite H. apply list_elem_of_here.
Defined.

Lemma get_clients_at_depth_complete_witness :
  var_owner world_diamond 2 ∈ (get_clients_at_depth world_diamond 0 0 1).1.
Proof.
  apply (get_clients_at_depth_complete world_diamond 0 0 1 1 2).
  - vm_compute. reflexivity.
  - exists 1. split; [|reflexivity].
    exists 1, [(ClientApply 1, 0); (ClientApply 1, 1)], 0.
    split; [|split].
    + assert (H : node_outputs world_diamond 0 = [1]) by (vm_compute; reflexivity).
      rewrite H. apply list_elem_of_here.
    + vm_compute. reflexivity.
    + apply list_elem_of_here.
  - assert (H : node_outputs world_diamond 1 = [2]) by (vm_compute; reflexivity).
    rewrite H. apply list_elem_of_here.
Defined.

Lemma get_clients_at_depth_key_error_witness :
  (get_clients_at_depth world_partial 0 1 1).2 = Some KeyError.
Proof.
  apply (proj2 (get_clients_at_depth_key_error world_partial 0 1 1) 2).
  - lia.
  - assert (H : node_outputs world_partial 1 = [2]) by (vm_compute; reflexivity).
    rewrite H. apply list_elem_of_here.
  - vm_compute. reflexivity.
Defined.

Lemma get_clients_at_depth_no_consumer_witness :
  get_clients_at_depth world_chain 0 2 5 = ([], None).
Proof.
  apply (get_clients_at_depth_no_consumer world_chain 0 2 5); [lia |].
  intros v Hv.
  assert (H : node_outputs world_chain 2 = [3]) by (vm_compute; reflexivity).
  rewrite H in Hv. apply list_elem_of_singleton in Hv as ->.
  exists [(ClientOutput, 0)]. split; [vm_compute; reflexivity |].
  by intros c ->%list_elem_of_singleton.
Defined.

Lemma is_same_graph_givens_pairs_witness :
  is_same_graph 3 4 (Some [(0, 2); (0, 1)]) world_xy
    = is_same_graph 3 4 (Some (dict_of_pairs [(0, 2); (0, 1)])) world_xy
  ∧ dict_of_pairs [(0, 1)] = [(0, 1)].
Proof.
  split.
  - apply (is_same_graph_givens_pairs 3 4 [(0, 2); (0, 1)] world_xy).
  - apply (is_same_graph_givens_pairs 3 4 [(0, 1)] world_xy).
    apply NoDup_singleton.
Defined.

Lemma is_same_graph_no_givens_witness :
  calls (is_same_graph 3 4 None world_xy).2
  = calls (is_same_graph_with_merge 3 4 (Some []) world_xy).2
    ++ [CallEqualComputations [3] [4] None None].
Proof.
  apply (is_same_graph_no_givens 3 4 None world_xy false
           (is_same_graph_with_merge 3 4 (Some []) world_xy).2).
  - reflexivity.
  - vm_compute. reflexivity.
Defined.

Lemma is_same_graph_outcomes_witness :
  is_same_graph 3 4 (Some [(5, 0)]) world_xyz
  = (Raise MalformedSubstitution,
     (is_same_graph_with_merge 3 4 (Some [(5, 0)]) world_xyz).2).
Proof.
  apply (proj1 (is_same_graph_outcomes 3 4 (Some [(5, 0)]) world_xyz)).
  vm_compute. reflexivity.
Defined.

Lemma is_same_graph_degenerate_pair_witness :
  is_same_graph 3 4 (Some [(2, 2)]) world_xy
  = (Ok false, (is_same_graph_with_merge 3 4 (Some [(2, 2)]) world_xy).2).
Proof.
  apply (is_same_graph_degenerate_pair 3 4 (Some [(2, 2)]) world_xy false _ 2 2).
  - vm_compute. reflexivity.
  - apply list_elem_of_here.
  - by left.
Defined.

Lemma is_same_graph_aligned_lists_witness :
  length [0] = length (givens_dict (Some [(1, 0)]))
  ∧ length [1] = length (givens_dict (Some [(1, 0)]))
  ∧ (∀ x, x ∈ [0] →
       in_var (all_vars_of (is_same_graph_with_merge 3 4 (Some [(1, 0)]) world_xy).2 3 4) x 1 = true
       ∧ in_var (all_vars_of (is_same_graph_with_merge 3 4 (Some [(1, 0)]) world_xy).2 3 4) x 2 = false)
  ∧ (∀ y, y ∈ [1] →
       in_var (all_vars_of (is_same_graph_with_merge 3 4 (Some [(1, 0)]) world_xy).2 3 4) y 2 = true
       ∧ in_var (all_vars_of (is_same_graph_with_merge 3 4 (Some [(1, 0)]) world_xy).2 3 4) y 1 = false).
Proof.
  apply (is_same_graph_aligned_lists 3 4 (Some [(1, 0)]) world_xy true
           (is_same_graph_with_merge 3 4 (Some [(1, 0)]) world_xy).2 [3] [4] [0] [1]).
  - vm_compute. reflexivity.
  - vm_compute. reflexivity.
Defined.

Lemma is_same_graph_leaves_witness :
  (is_same_graph_with_merge 0 1 None world_xy).1 = Ok (bool_decide (0 = 1))
  ∧ (is_same_graph 0 1 None world_xy).1 = Ok (bool_decide (0 = 1))
  ∧ (is_same_graph 0 1 (Some []) world_xy).1 = Ok (bool_decide (0 = 1)).
Proof.
  apply (is_same_graph_leaves 0 1 world_xy).
  - eexists. split; [vm_compute; reflexivity | reflexivity].
  - eexists. split; [vm_compute; reflexivity | reflexivity].
Defined.

Lemma is_same_graph_with_merge_returns_witness :
  ∃ b, (is_same_graph_with_merge 3 4 None world_xy).1 = Ok b.
Proof.
  apply (proj2 (is_same_graph_with_merge_returns 3 4 None world_xy)).
  reflexivity.
Defined.
